(** * QuadKern client-side rate limiter (src/security/rateLimiter.ts)

    A shallow embedding of [QuadKernRateLimiter]: the browser fingerprint
    that serves as client key, the sliding-window admission check, the
    timed block installed with [setTimeout], the read-only queries and the
    periodic cleanup sweep, followed by the properties of the
    specification that concern them.

    Conventions of the embedding.
    - JavaScript numbers that hold integers (millisecond instants from
      [Date.now()], counters, the 32-bit hash) are [Z]; the 32-bit
      wrap-around of the bit operators is written out ([toInt32]).
    - Strings are [string]; a character's code unit is its byte value.
      The hash loop itself is stated over an arbitrary list of code units.
    - [Map<string, ClientInfo>] is a [gmap string ClientInfo], the two
      [Set<string>] fields are [gset string].
    - A method is a function from the limiter's state to a completion
      (normal return or thrown error) and the next state.  What the source
      reads from the browser ([navigator], [screen], the canvas) is the
      [Browser] argument; what it reads from the clock is the [now]
      argument.
    - A callback registered with [setTimeout] is a pending entry
      [(due, ip)] of the state; the event loop may run it at any instant
      not earlier than [due]. *)

From Stdlib Require Import ZArith List String Ascii Lia Bool DecimalString Sorted.
From stdpp Require Import base gmap sets list strings.

Open Scope string_scope.
Open Scope Z_scope.

(** ** JavaScript primitives used by the source *)

Module Js.

(** Errors the embedded code can throw, with the [name] property of the
    error object. *)
Inductive JsError : Type :=
| TypeError.

Definition errorName (e : JsError) : string :=
  match e with
  | TypeError => "TypeError"
  end.

(** Outcome of evaluating a call: a value, or a thrown error that
    propagates to the caller. *)
Inductive completion (A : Type) : Type :=
| Return (a : A)
| Throw (e : JsError).
Arguments Return {A} a.
Arguments Throw {A} e.

(** [ToInt32]: reduction modulo 2^32 into the signed range. *)
Definition toInt32 (z : Z) : Z := (z + 2 ^ 31) mod 2 ^ 32 - 2 ^ 31.

(** [a << n] *)
Definition shl (a n : Z) : Z := toInt32 (Z.shiftl (toInt32 a) (Z.land n 31)).

(** [a & b] *)
Definition bitand (a b : Z) : Z := Z.land (toInt32 a) (toInt32 b).

(** [String(n)] for an integral number. *)
Definition numberToString (n : Z) : string :=
  NilZero.string_of_int (Z.to_int n).

(** [s.charCodeAt(i)] for every [i], in order. *)
Definition charCode (c : ascii) : Z := Z.of_N (N_of_ascii c).

Definition charCodes (s : string) : list Z :=
  List.map charCode (list_ascii_of_string s).

(** [Math.min(...xs)] for a non-empty array ([Infinity] on the empty one
    is never requested by the source, which tests the length first). *)
Definition minOf (x : Z) (xs : list Z) : Z := fold_left Z.min xs x.

(** [n.toString(36)] for a non-negative integer. *)
Definition digits36 : string := "0123456789abcdefghijklmnopqrstuvwxyz".

Definition digit36 (d : Z) : ascii :=
  match String.get (Z.to_nat d) digits36 with
  | Some c => c
  | None => "0"%char
  end.

Fixpoint toString36_from (fuel : nat) (n : Z) (acc : string) : string :=
  let acc' := String (digit36 (n mod 36)) acc in
  match fuel with
  | O => acc'
  | S fuel' => if n <? 36 then acc' else toString36_from fuel' (n / 36) acc'
  end.

Definition toString36 (n : Z) : string :=
  toString36_from (Z.to_nat (Z.log2 n)) n "".

(** Reading a base-36 numeral back ([parseInt(s, 36)] on digit strings). *)
Fixpoint indexOf (c : ascii) (s : string) (i : Z) : option Z :=
  match s with
  | EmptyString => None
  | String c' s' => if Ascii.eqb c c' then Some i else indexOf c s' (i + 1)
  end.

Definition digitValue (c : ascii) : Z :=
  match indexOf c digits36 0 with
  | Some i => i
  | None => 0
  end.

Definition parse36_from (s : string) (v : Z) : Z :=
  fold_left (fun v c => v * 36 + digitValue c) (list_ascii_of_string s) v.

Definition parse36 (s : string) : Z := parse36_from s 0.

End Js.

Import Js.

(** ** The fingerprint *)

(** What [generateFingerprint] reads from the page's environment. *)
Record Browser : Type := {
  userAgent : string;        (* navigator.userAgent *)
  language : string;         (* navigator.language *)
  screenWidth : Z;           (* screen.width *)
  screenHeight : Z;          (* screen.height *)
  timezoneOffset : Z;        (* new Date().getTimezoneOffset() *)
  getContext2d : bool;       (* canvas.getContext('2d') is not null *)
  toDataURL : string         (* canvas.toDataURL() after the text is drawn *)
}.

(** The local constant [fingerprint]: the five attributes joined by '|'. *)
Definition fingerprintText (env : Browser) : string :=
  String.concat "|"
    [ userAgent env;
      language env;
      numberToString (screenWidth env) ++ "x" ++ numberToString (screenHeight env);
      numberToString (timezoneOffset env);
      toDataURL env ].

(** One iteration of the hash loop:
    [hash = ((hash << 5) - hash) + char; hash = hash & hash]. *)
Definition hashStep (hash char : Z) : Z :=
  let hash := (Js.shl hash 5 - hash) + char in
  Js.bitand hash hash.

(** The [for] loop over the code units, from [hash = 0]. *)
Definition hashLoop (codes : list Z) : Z := fold_left hashStep codes 0.

(** [generateFingerprint]: [ctx!.textBaseline = 'top'] dereferences the
    context, so a null context throws a TypeError before anything else
    happens. *)
Definition generateFingerprint (env : Browser) : completion string :=
  if getContext2d env then
    let fingerprint := fingerprintText env in
    let hash := hashLoop (charCodes fingerprint) in
    Return (toString36 (Z.abs hash))
  else Throw TypeError.

Definition getClientIP (env : Browser) : completion string :=
  generateFingerprint env.

(** The recurrence as the specification words it:
    [hash = hash*31 - hash + charCode], wrapped to 32 bits at each step. *)
Definition spec_hashStep (hash char : Z) : Z :=
  toInt32 (hash * 31 - hash + char).

Definition spec_computeKey (env : Browser) : string :=
  toString36 (Z.abs (fold_left spec_hashStep (charCodes (fingerprintText env)) 0)).

(** ** The limiter's state *)

Record RateLimitConfig : Type := {
  maxRequests : Z;
  windowMs : Z;
  blockDurationMs : Z;
  enableLogging : bool
}.

(** [Partial<RateLimitConfig>]: every field may be absent. *)
Record PartialConfig : Type := {
  maxRequests_opt : option Z;
  windowMs_opt : option Z;
  blockDurationMs_opt : option Z;
  enableLogging_opt : option bool
}.

(** The object spread [{ ...base, ...newConfig }]. *)
Definition spread (base : RateLimitConfig) (newConfig : PartialConfig)
  : RateLimitConfig :=
  {| maxRequests := default (maxRequests base) (maxRequests_opt newConfig);
     windowMs := default (windowMs base) (windowMs_opt newConfig);
     blockDurationMs := default (blockDurationMs base) (blockDurationMs_opt newConfig);
     enableLogging := default (enableLogging base) (enableLogging_opt newConfig) |}.

Record ClientInfo : Type := {
  ip : string;
  requests : list Z;
  blocked : bool;
  blockUntil : Z
}.

(** The fields of the class, followed by the two pieces of the page the
    methods act on: the callbacks registered with [setTimeout] that have
    not run yet, each with the instant from which it may run and the key
    it removes from [blockedIPs], and the lines written by
    [console.warn]. *)
Record QuadKernRateLimiter : Type := {
  config : RateLimitConfig;
  clients : gmap string ClientInfo;
  blockedIPs : gset string;
  suspiciousIPs : gset string;
  timeouts : list (Z * string);
  console : list string
}.

Definition set_config (c : RateLimitConfig) (this : QuadKernRateLimiter) :=
  {| config := c; clients := clients this; blockedIPs := blockedIPs this;
     suspiciousIPs := suspiciousIPs this; timeouts := timeouts this;
     console := console this |}.

Definition set_clients (m : gmap string ClientInfo) (this : QuadKernRateLimiter) :=
  {| config := config this; clients := m; blockedIPs := blockedIPs this;
     suspiciousIPs := suspiciousIPs this; timeouts := timeouts this;
     console := console this |}.

Definition set_blockedIPs (s : gset string) (this : QuadKernRateLimiter) :=
  {| config := config this; clients := clients this; blockedIPs := s;
     suspiciousIPs := suspiciousIPs this; timeouts := timeouts this;
     console := console this |}.

Definition set_suspiciousIPs (s : gset string) (this : QuadKernRateLimiter) :=
  {| config := config this; clients := clients this; blockedIPs := blockedIPs this;
     suspiciousIPs := s; timeouts := timeouts this; console := console this |}.

Definition set_timeouts (l : list (Z * string)) (this : QuadKernRateLimiter) :=
  {| config := config this; clients := clients this; blockedIPs := blockedIPs this;
     suspiciousIPs := suspiciousIPs this; timeouts := l; console := console this |}.

Definition set_console (l : list string) (this : QuadKernRateLimiter) :=
  {| config := config this; clients := clients this; blockedIPs := blockedIPs this;
     suspiciousIPs := suspiciousIPs this; timeouts := timeouts this; console := l |}.

Definition set_requests (l : list Z) (client : ClientInfo) : ClientInfo :=
  {| ip := ip client; requests := l; blocked := blocked client;
     blockUntil := blockUntil client |}.

(** ** Methods as state transformers that may throw *)

Definition M (A : Type) : Type :=
  QuadKernRateLimiter -> completion A * QuadKernRateLimiter.

Definition ret {A} (a : A) : M A := fun this => (Return a, this).

Definition bind {A B} (c : M A) (k : A -> M B) : M B :=
  fun this =>
    match c this with
    | (Return a, this') => k a this'
    | (Throw e, this') => (Throw e, this')
    end.

Notation "'let*' x ':=' c 'in' k" := (bind c (fun x => k))
  (at level 10, x name, c at level 100, k at level 200).

(** A call that only reads the environment. *)
Definition lift {A} (r : completion A) : M A := fun this => (r, this).

Definition get : M QuadKernRateLimiter := fun this => (Return this, this).

Definition modify (f : QuadKernRateLimiter -> QuadKernRateLimiter) : M unit :=
  fun this => (Return tt, f this).

(** [this.clients.set(ip, client)], also used to store the record again
    after a field of the shared object [client] has been assigned. *)
Definition clients_set (key : string) (client : ClientInfo) : M unit :=
  modify (fun this => set_clients (<[key := client]> (clients this)) this).

(** [setTimeout(callback, delay)] called at instant [now].  The delay is
    taken as a signed 32-bit integer (the [long] of the timer interface:
    a delay of 2^31 ms or more wraps around), and a negative delay counts
    as zero. *)
Definition setTimeout (now : Z) (key : string) (delay : Z) : M unit :=
  modify (fun this =>
    set_timeouts (timeouts this ++ [(now + Z.max 0 (toInt32 delay), key)]) this).

Definition console_warn (line : string) : M unit :=
  modify (fun this => set_console (console this ++ [line]) this).

(** [new QuadKernRateLimiter(config)].  The interval installed by
    [startCleanup] is the source of the [cleanup] events below. *)
Definition constructor (newConfig : PartialConfig) : QuadKernRateLimiter :=
  {| config :=
       spread {| maxRequests := 100; windowMs := 60000;
                 blockDurationMs := 300000; enableLogging := false |}
              newConfig;
     clients := ∅;
     blockedIPs := ∅;
     suspiciousIPs := ∅;
     timeouts := [];
     console := [] |}.

Definition blockClient (key : string) (now : Z) : M unit :=
  let* _ := modify (fun this => set_blockedIPs ({[key]} ∪ blockedIPs this) this) in
  let* _ := modify (fun this => set_suspiciousIPs ({[key]} ∪ suspiciousIPs this) this) in
  let* this := get in
  (* Auto-unblock after the configured time *)
  let* _ := setTimeout now key (blockDurationMs (config this)) in
  if enableLogging (config this) then
    console_warn ("🚨 Rate limit exceeded for client: " ++ key)
  else ret tt.

Definition checkRateLimit (env : Browser) (now : Z) : M bool :=
  let* clientIP := lift (getClientIP env) in
  let* this := get in
  (* the key is in the blocked list *)
  if bool_decide (clientIP ∈ blockedIPs this) then ret false
  else
    let* client :=
      match clients this !! clientIP with
      | Some client => ret client
      | None =>
          let client := {| ip := clientIP; requests := [];
                           blocked := false; blockUntil := 0 |} in
          let* _ := clients_set clientIP client in
          ret client
      end in
    (* drop old requests *)
    let client :=
      set_requests
        (List.filter (fun timestamp => now - timestamp <? windowMs (config this))
                     (requests client))
        client in
    let* _ := clients_set clientIP client in
    (* check the limit *)
    if Z.of_nat (length (requests client)) >=? maxRequests (config this) then
      let* _ := blockClient clientIP now in
      ret false
    else
      (* record the current request *)
      let* _ := clients_set clientIP (set_requests (requests client ++ [now]) client) in
      ret true.

Definition isBlocked (env : Browser) : M bool :=
  let* clientIP := lift (getClientIP env) in
  let* this := get in
  ret (bool_decide (clientIP ∈ blockedIPs this)).

Definition getRemainingRequests (env : Browser) (now : Z) : M Z :=
  let* clientIP := lift (getClientIP env) in
  let* this := get in
  match clients this !! clientIP with
  | None => ret (maxRequests (config this))
  | Some client =>
      let recentRequests :=
        List.filter (fun timestamp => now - timestamp <? windowMs (config this))
                    (requests client) in
      ret (Z.max 0 (maxRequests (config this) - Z.of_nat (length recentRequests)))
  end.

Definition getTimeUntilReset (env : Browser) (now : Z) : M Z :=
  let* clientIP := lift (getClientIP env) in
  let* this := get in
  match clients this !! clientIP with
  | None => ret 0
  | Some client =>
      match requests client with
      | [] => ret 0
      | r :: rs =>
          let oldestRequest := minOf r rs in
          ret (Z.max 0 (windowMs (config this) - (now - oldestRequest)))
      end
  end.

(** The body of the [setInterval] callback installed by [startCleanup],
    run at instant [now]. *)
Definition cleanup (now : Z) : M unit :=
  modify (fun this =>
    let cutoff := now - windowMs (config this) * 2 in
    set_clients
      (omap (fun client =>
               let client :=
                 set_requests
                   (List.filter (fun timestamp => cutoff <? timestamp)
                                (requests client))
                   client in
               if (length (requests client) =? 0)%nat then None else Some client)
            (clients this))
      this).

Definition updateConfig (newConfig : PartialConfig) : M unit :=
  modify (fun this => set_config (spread (config this) newConfig) this).

Record Stats : Type := {
  totalClients : nat;
  blockedIPs_size : nat;
  suspiciousIPs_size : nat;
  stats_config : RateLimitConfig
}.

Definition getStats : M Stats :=
  let* this := get in
  ret {| totalClients := size (clients this);
         blockedIPs_size := size (blockedIPs this);
         suspiciousIPs_size := size (suspiciousIPs this);
         stats_config := config this |}.

Definition clearBlockedIPs : M unit :=
  let* _ := modify (set_blockedIPs ∅) in
  modify (set_suspiciousIPs ∅).

(** The event loop runs the [i]-th pending timeout callback at instant
    [now]: [this.blockedIPs.delete(ip)].  Nothing happens when there is no
    such callback or it is not due yet. *)
Definition timeoutFires (i : nat) (now : Z) : M unit :=
  let* this := get in
  match timeouts this !! i with
  | Some (due, key) =>
      if due <=? now then
        let* _ := modify (set_timeouts (delete i (timeouts this))) in
        modify (fun this => set_blockedIPs (blockedIPs this ∖ {[key]}) this)
      else ret tt
  | None => ret tt
  end.

(** ** Traces *)

(** What can happen to a limiter: a call of one of its public methods, or
    one of its two kinds of timer callbacks. *)
Inductive event : Type :=
| CheckRateLimit (env : Browser) (now : Z)
| IsBlocked (env : Browser)
| GetRemainingRequests (env : Browser) (now : Z)
| GetTimeUntilReset (env : Browser) (now : Z)
| UpdateConfig (newConfig : PartialConfig)
| GetStats
| ClearBlockedIPs
| TimeoutFires (i : nat) (now : Z)
| CleanupFires (now : Z).

Inductive value : Type :=
| VBool (b : bool)
| VNumber (z : Z)
| VStats (s : Stats)
| VUndefined.

Definition step (ev : event) : M value :=
  match ev with
  | CheckRateLimit env now => let* b := checkRateLimit env now in ret (VBool b)
  | IsBlocked env => let* b := isBlocked env in ret (VBool b)
  | GetRemainingRequests env now =>
      let* n := getRemainingRequests env now in ret (VNumber n)
  | GetTimeUntilReset env now =>
      let* n := getTimeUntilReset env now in ret (VNumber n)
  | UpdateConfig newConfig => let* _ := updateConfig newConfig in ret VUndefined
  | GetStats => let* s := getStats in ret (VStats s)
  | ClearBlockedIPs => let* _ := clearBlockedIPs in ret VUndefined
  | TimeoutFires i now => let* _ := timeoutFires i now in ret VUndefined
  | CleanupFires now => let* _ := cleanup now in ret VUndefined
  end.

(** The state after a trace. *)
Definition after (evs : list event) (this : QuadKernRateLimiter)
  : QuadKernRateLimiter :=
  fold_left (fun this ev => snd (step ev this)) evs this.

(** The outcomes of the [checkRateLimit] calls of a trace, in order. *)
Fixpoint verdicts (evs : list event) (this : QuadKernRateLimiter)
  : list (completion value) :=
  match evs with
  | [] => []
  | ev :: evs' =>
      let r := step ev this in
      match ev with
      | CheckRateLimit _ _ => fst r :: verdicts evs' (snd r)
      | _ => verdicts evs' (snd r)
      end
  end.

(** The timestamps recorded for a key (none when it has no record). *)
Definition requestsOf (key : string) (this : QuadKernRateLimiter) : list Z :=
  match clients this !! key with
  | Some client => requests client
  | None => []
  end.

(** The event loop runs every pending timeout callback that is due at
    [now], the most recently registered first. *)
Fixpoint timeoutsRunBelow (n : nat) (now : Z) (this : QuadKernRateLimiter)
  : QuadKernRateLimiter :=
  match n with
  | O => this
  | S n' => timeoutsRunBelow n' now (snd (timeoutFires n' now this))
  end.

Definition timeoutsRun (now : Z) (this : QuadKernRateLimiter)
  : QuadKernRateLimiter :=
  timeoutsRunBelow (length (timeouts this)) now this.

(** ** How one [checkRateLimit] call acts *)

(** The record a call works on: the stored one, or the fresh one it
    creates for a key it has not seen. *)
Definition clientOf (key : string) (this : QuadKernRateLimiter) : ClientInfo :=
  match clients this !! key with
  | Some client => client
  | None => {| ip := key; requests := []; blocked := false; blockUntil := 0 |}
  end.

(** The timestamps that survive the pruning of a call at [now]. *)
Definition kept (key : string) (now : Z) (this : QuadKernRateLimiter) : list Z :=
  List.filter (fun timestamp => now - timestamp <? windowMs (config this))
              (requestsOf key this).

(** The state an admitted call leaves. *)
Definition admitted (key : string) (now : Z) (this : QuadKernRateLimiter)
  : QuadKernRateLimiter :=
  set_clients
    (<[key := set_requests (kept key now this ++ [now]) (clientOf key this)]>
       (clients this))
    this.

(** The state a call that denies and blocks leaves. *)
Definition denied (key : string) (now : Z) (this : QuadKernRateLimiter)
  : QuadKernRateLimiter :=
  {| config := config this;
     clients := <[key := set_requests (kept key now this) (clientOf key this)]>
                  (clients this);
     blockedIPs := {[key]} ∪ blockedIPs this;
     suspiciousIPs := {[key]} ∪ suspiciousIPs this;
     timeouts := timeouts this
                 ++ [(now + Z.max 0 (toInt32 (blockDurationMs (config this))), key)];
     console := if enableLogging (config this)
                then console this ++ ["🚨 Rate limit exceeded for client: " ++ key]
                else console this |}.

(** ** Vocabulary of the properties *)

(** The environment's fingerprint is [key]. *)
Definition isKey (key : string) (env : Browser) : bool :=
  match generateFingerprint env with
  | Return k => String.eqb k key
  | Throw _ => false
  end.

(** Events of a burst of calls for [key] within the instants [lo..hi]:
    the calls themselves, the reads, and the timer callbacks that happen
    to run in between.  Reconfiguration and the administrative clearing of
    the block list are not part of a burst. *)
Definition inBurst (key : string) (lo hi : Z) (ev : event) : bool :=
  match ev with
  | CheckRateLimit env now => isKey key env && (lo <=? now) && (now <=? hi)
  | CleanupFires now => (lo <=? now) && (now <=? hi)
  | UpdateConfig _ | ClearBlockedIPs => false
  | _ => true
  end.

(** Events that can happen before the instant [deadline]: timeout
    callbacks run at instants earlier than [deadline]; the block list is
    not cleared by hand. *)
Definition beforeDeadline (deadline : Z) (ev : event) : bool :=
  match ev with
  | TimeoutFires _ now => now <? deadline
  | ClearBlockedIPs => false
  | _ => true
  end.

(** Events without a request for [key], a reconfiguration or a manual
    clearing of the block list. *)
Definition quietFor (key : string) (ev : event) : bool :=
  match ev with
  | CheckRateLimit env _ => negb (isKey key env)
  | UpdateConfig _ | ClearBlockedIPs => false
  | _ => true
  end.

(** Two states that differ at most in [suspiciousIPs]. *)
Definition agree (s1 s2 : QuadKernRateLimiter) : Prop :=
  config s1 = config s2 /\ clients s1 = clients s2 /\
  blockedIPs s1 = blockedIPs s2 /\ timeouts s1 = timeouts s2 /\
  console s1 = console s2.

(** The condition the specification names for a fingerprint that cannot
    be produced. *)
Definition CapabilityUnavailable (e : JsError) : Prop :=
  errorName e = "CapabilityUnavailable".

(** The state of a key during a burst: the configuration is [cfg], the key
    is not blocked, and its record holds [n] timestamps, all of them taken
    within [lo..hi]. *)
Definition burstInv (key : string) (lo hi : Z) (cfg : RateLimitConfig)
  (n : Z) (this : QuadKernRateLimiter) : Prop :=
  config this = cfg /\
  (key ∉ blockedIPs this) /\
  Z.of_nat (length (requestsOf key this)) = n /\
  Forall (fun timestamp => lo <= timestamp <= hi) (requestsOf key this).

(** A block on [key] that no pending timeout callback can lift before
    [deadline]. *)
Definition heldUntil (key : string) (deadline : Z) (this : QuadKernRateLimiter)
  : Prop :=
  key ∈ blockedIPs this /\
  Forall (fun entry : Z * string => entry.2 = key -> deadline <= entry.1)
         (timeouts this).

(** A block on [key], if still in force, has a pending timeout callback
    due by [dueBy]; the key's recorded timestamps are not later than [t];
    the configuration is [cfg]. *)
Definition liftedBy (key : string) (t dueBy : Z) (cfg : RateLimitConfig)
  (this : QuadKernRateLimiter) : Prop :=
  config this = cfg /\
  Forall (fun timestamp => timestamp <= t) (requestsOf key this) /\
  (key ∈ blockedIPs this ->
   exists (i : nat) (due : Z),
     timeouts this !! i = Some (due, key) /\ due <= dueBy).

(** ** Sample data for the concrete scenarios *)

Definition sampleBrowser : Browser :=
  {| userAgent := "Mozilla/5.0"; language := "en-US";
     screenWidth := 1920; screenHeight := 1080; timezoneOffset := -60;
     getContext2d := true; toDataURL := "data:image/png;base64,AAAA" |}.

Definition sampleKey : string := "8pnidv".

Definition noCanvasBrowser : Browser :=
  {| userAgent := "Mozilla/5.0"; language := "en-US";
     screenWidth := 1920; screenHeight := 1080; timezoneOffset := -60;
     getContext2d := false; toDataURL := "" |}.

Definition configOf (maxReq window blockFor : Z) : PartialConfig :=
  {| maxRequests_opt := Some maxReq; windowMs_opt := Some window;
     blockDurationMs_opt := Some blockFor; enableLogging_opt := None |}.

(** [{maxRequests: 3, windowMs: 1000, blockDurationMs: 5000}] *)
Definition scenarioLimiter : QuadKernRateLimiter :=
  constructor (configOf 3 1000 5000).

(** A block shorter than the window. *)
Definition shortBlockLimiter : QuadKernRateLimiter :=
  constructor (configOf 1 1000 10).

Definition call (now : Z) : event := CheckRateLimit sampleBrowser now.

(** ** Vocabulary of the further properties *)

(** Events other than a reconfiguration. *)
Definition noReconfig (ev : event) : bool :=
  match ev with
  | UpdateConfig _ => false
  | _ => true
  end.

(** No record holds more timestamps than the configured ceiling. *)
Definition recordsBounded (this : QuadKernRateLimiter) : Prop :=
  forall key client,
    clients this !! key = Some client ->
    Z.of_nat (length (requests client)) <= Z.max 0 (maxRequests (config this)).

(** Every blocked key has an unblocking callback pending. *)
Definition everyBlockHasTimeout (this : QuadKernRateLimiter) : Prop :=
  forall key,
    key ∈ blockedIPs this ->
    exists (i : nat) (due : Z), timeouts this !! i = Some (due, key).

(** [{ ...a, ...b }] on two partial configurations. *)
Definition override (a b : PartialConfig) : PartialConfig :=
  {| maxRequests_opt :=
       match maxRequests_opt b with Some x => Some x | None => maxRequests_opt a end;
     windowMs_opt :=
       match windowMs_opt b with Some x => Some x | None => windowMs_opt a end;
     blockDurationMs_opt :=
       match blockDurationMs_opt b with
       | Some x => Some x
       | None => blockDurationMs_opt a
       end;
     enableLogging_opt :=
       match enableLogging_opt b with
       | Some x => Some x
       | None => enableLogging_opt a
       end |}.

(** The characters of a base-36 numeral. *)
Definition isDigit36 (c : ascii) : bool :=
  match indexOf c digits36 0 with
  | Some _ => true
  | None => false
  end.

(** A second environment, with another fingerprint. *)
Definition otherBrowser : Browser :=
  {| userAgent := "Mozilla/5.0"; language := "es-AR";
     screenWidth := 1366; screenHeight := 768; timezoneOffset := 180;
     getContext2d := true; toDataURL := "data:image/png;base64,BBBB" |}.

(** The polynomial [c0*31^(n-1) + c1*31^(n-2) + ... + c(n-1)] of a list of
    code units, without any wrap-around. *)
Definition polynomial31 (codes : list Z) : Z :=
  fold_left (fun value char => 31 * value + char) codes 0.

(** The instant at which an event reads the clock, if it does. *)
Definition timeOf (ev : event) : option Z :=
  match ev with
  | CheckRateLimit _ now | GetRemainingRequests _ now | GetTimeUntilReset _ now
  | TimeoutFires _ now | CleanupFires now => Some now
  | IsBlocked _ | UpdateConfig _ | GetStats | ClearBlockedIPs => None
  end.

(** A trace whose clock readings, from [t] on, never go back. *)
Fixpoint chronological (t : Z) (evs : list event) : bool :=
  match evs with
  | [] => true
  | ev :: evs' =>
      match timeOf ev with
      | Some t' => (t <=? t') && chronological t' evs'
      | None => chronological t evs'
      end
  end.

(** The last clock reading of a trace that starts at [t]. *)
Fixpoint lastTime (t : Z) (evs : list event) : Z :=
  match evs with
  | [] => t
  | ev :: evs' =>
      match timeOf ev with
      | Some t' => lastTime t' evs'
      | None => lastTime t evs'
      end
  end.

(** Every record is in chronological order and holds no timestamp later
    than [t]. *)
Definition inOrder (t : Z) (this : QuadKernRateLimiter) : Prop :=
  forall key client,
    clients this !! key = Some client ->
    StronglySorted Z.le (requests client) /\
    Forall (fun timestamp => timestamp <= t) (requests client).

(** ** Endpoint protection (the second class of the security layer) *)

(** [QuadKernEndpointProtection]: its response cache with a time to live,
    and the request loop with retries and exponential back-off.  The
    response of [fetch] is what the network gives, attempt by attempt; the
    loop's effects are recorded in the order in which they happen.  JSON
    values are represented by their text; the parameter [data] of the
    methods is called [requestData] here, [data] being the field of a
    cache entry. *)
Module Endpoint.

Record EndpointConfig : Type := {
  baseUrl : string;
  timeout : Z;
  retries : Z;
  enableCache : bool;
  cacheTimeout : Z
}.

Inductive Method : Type := GET | POST | PUT | DELETE.

Definition methodName (m : Method) : string :=
  match m with
  | GET => "GET"
  | POST => "POST"
  | PUT => "PUT"
  | DELETE => "DELETE"
  end.

Record ProtectedEndpoint : Type := {
  id : string;
  url : string;
  method : Method;
  headers : gmap string string;
  rateLimit : Z
}.

(** A cache entry [{ data, timestamp }]. *)
Record CacheEntry : Type := {
  data : string;
  timestamp : Z
}.

(** The fields of the class; [requestQueue] is represented by the keys
    that have a pending promise. *)
Record QuadKernEndpointProtection : Type := {
  config : EndpointConfig;
  endpoints : gmap string ProtectedEndpoint;
  cache : gmap string CacheEntry;
  requestQueue : gset string
}.

Definition set_cache (m : gmap string CacheEntry)
  (this : QuadKernEndpointProtection) : QuadKernEndpointProtection :=
  {| config := config this; endpoints := endpoints this; cache := m;
     requestQueue := requestQueue this |}.

(** [JSON.stringify(data || {})]: the argument [data] is given by its JSON
    text when it is truthy, and is absent otherwise. *)
Definition stringifyOrEmpty (requestData : option string) : string :=
  match requestData with
  | Some json => json
  | None => "{}"
  end.

(** The template [`${endpointId}_${JSON.stringify(data || {})}`]. *)
Definition cacheKey (endpointId : string) (requestData : option string)
  : string :=
  endpointId ++ "_" ++ stringifyOrEmpty requestData.

(** [getFromCache], called at instant [now]; [None] is [null]. *)
Definition getFromCache (endpointId : string) (requestData : option string)
  (now : Z)
  (this : QuadKernEndpointProtection)
  : option string * QuadKernEndpointProtection :=
  let key := cacheKey endpointId requestData in
  match cache this !! key with
  | None => (None, this)
  | Some cached =>
      if now - timestamp cached >? cacheTimeout (config this) then
        (None, set_cache (delete key (cache this)) this)
      else (Some (data cached), this)
  end.

(** [setCache], called at instant [now]. *)
Definition setCache (endpointId : string) (requestData : option string)
  (result : string) (now : Z) (this : QuadKernEndpointProtection)
  : QuadKernEndpointProtection :=
  set_cache (<[cacheKey endpointId requestData :=
               {| data := result; timestamp := now |}]> (cache this)) this.

(** The body of the interval callback installed by [startCacheCleanup]. *)
Definition cacheCleanup (now : Z) (this : QuadKernEndpointProtection)
  : QuadKernEndpointProtection :=
  set_cache
    (filter (fun entry : string * CacheEntry =>
               ~ (now - timestamp entry.2 > cacheTimeout (config this)))
            (cache this))
    this.

Definition clearCache (this : QuadKernEndpointProtection)
  : QuadKernEndpointProtection :=
  set_cache ∅ this.

(** *** The request *)

(** Which abort signal a request carries. *)
Inductive Signal : Type :=
| ControllerSignal      (* controller.signal, aborted when the timeout fires *)
| CallerSignal.         (* a signal passed in by the caller *)

(** The fields of [RequestInit] that the code sets; headers are a plain
    object. *)
Record RequestInit : Type := {
  init_method : option string;
  init_headers : option (gmap string string);
  init_signal : option Signal;
  init_body : option string
}.

Definition orElse {A} (x y : option A) : option A :=
  match x with
  | Some a => Some a
  | None => y
  end.

(** The object literal
    [{ method, headers: {...endpoint.headers, ...options?.headers},
       signal, ...options }]
    followed by the assignment of [body] for POST and PUT. *)
Definition requestOptions (endpoint : ProtectedEndpoint)
  (requestData : option string) (options : option RequestInit) : RequestInit :=
  let callerHeaders :=
    match options with
    | Some o => default ∅ (init_headers o)
    | None => ∅
    end in
  let base :=
    {| init_method := Some (methodName (method endpoint));
       init_headers := Some (callerHeaders ∪ headers endpoint);
       init_signal := Some ControllerSignal;
       init_body := None |} in
  let requestOptions :=
    match options with
    | Some o =>
        {| init_method := orElse (init_method o) (init_method base);
           init_headers := orElse (init_headers o) (init_headers base);
           init_signal := orElse (init_signal o) (init_signal base);
           init_body := orElse (init_body o) (init_body base) |}
    | None => base
    end in
  match requestData, method endpoint with
  | Some json, POST | Some json, PUT =>
      {| init_method := init_method requestOptions;
         init_headers := init_headers requestOptions;
         init_signal := init_signal requestOptions;
         init_body := Some json |}
  | _, _ => requestOptions
  end.

(** What one [fetch] gives once it settles: a rejection (network failure,
    abort), or a response with its [ok] flag, status line, and the outcome
    of [response.json()]: the parsed value or the error it rejects with.
    A [fetch] that never settles is not described: the code gets past it
    only through the abort timer, whose firing shows here as a
    rejection. *)
Inductive FetchResult : Type :=
| Rejected (error : string)
| Responded (ok : bool) (status : Z) (statusText : string)
            (json : string + string).

(** A thrown value: an error with its message, or [undefined]. *)
Inductive Thrown : Type :=
| Undefined
| ErrorThrown (message : string).

Inductive Effect : Type :=
| SetTimeout (ms : Z)
| Fetch (url : string) (options : RequestInit)
| Delay (ms : Z)
| ClearTimeout.

(** The body of the [try] block for one response. *)
Definition attemptOutcome (r : FetchResult) : string + Thrown :=
  match r with
  | Rejected error => inr (ErrorThrown error)
  | Responded ok status statusText json =>
      if ok then
        match json with
        | inl result => inl result
        | inr error => inr (ErrorThrown error)
        end
      else
        inr (ErrorThrown ("HTTP " ++ numberToString status ++ ": " ++ statusText))
  end.

(** The [for] loop from [attempt] on; [network n] is what the [n]-th
    [fetch] of this request gives.  [None] stands for a loop that is not
    over when the fuel is. *)
Fixpoint retryLoop (network : Z -> FetchResult) (retries : Z)
  (url : string) (options : RequestInit)
  (fuel : nat) (attempt : Z) (lastError : Thrown)
  : option ((string + Thrown) * list Effect) :=
  match fuel with
  | O => None
  | S fuel' =>
      if attempt <=? retries then
        match attemptOutcome (network attempt) with
        | inl result => Some (inl result, [Fetch url options; ClearTimeout])
        | inr error =>
            let wait :=
              if attempt <? retries then [Delay (2 ^ attempt * 1000)] else [] in
            match retryLoop network retries url options fuel' (attempt + 1) error with
            | Some (r, effects) => Some (r, Fetch url options :: wait ++ effects)
            | None => None
            end
        end
      else Some (inr lastError, [ClearTimeout])
  end.

(** [executeRequest]: the result is the parsed response or the thrown
    value, together with the effects in order. *)
Definition executeRequest (network : Z -> FetchResult)
  (endpoint : ProtectedEndpoint) (requestData : option string)
  (options : option RequestInit) (this : QuadKernEndpointProtection)
  : option ((string + Thrown) * list Effect) :=
  let requestOptions := requestOptions endpoint requestData options in
  match retryLoop network (retries (config this)) (url endpoint) requestOptions
                  (S (Z.to_nat (retries (config this)))) 1 Undefined with
  | Some (r, effects) => Some (r, SetTimeout (timeout (config this)) :: effects)
  | None => None
  end.

(** How many times a run called [fetch], and how long it waited. *)
Definition fetchCount (effects : list Effect) : nat :=
  length (List.filter (fun e => match e with Fetch _ _ => true | _ => false end)
                      effects).


End Endpoint.

(** Sample data for the endpoint protection: the configuration of the
    exported instance [apiProtection], an endpoint of the same kind as the
    ones the constructor registers, and a network whose second attempt
    succeeds. *)
Definition sampleProtection : Endpoint.QuadKernEndpointProtection :=
  {| Endpoint.config :=
       {| Endpoint.baseUrl := ""; Endpoint.timeout := 8000;
          Endpoint.retries := 2; Endpoint.enableCache := true;
          Endpoint.cacheTimeout := 300000 |};
     Endpoint.endpoints := ∅;
     Endpoint.cache := ∅;
     Endpoint.requestQueue := ∅ |}.

Definition sampleEndpoint : Endpoint.ProtectedEndpoint :=
  {| Endpoint.id := "contact";
     Endpoint.url := "https://proxy.quadkern.com/api/contact";
     Endpoint.method := Endpoint.POST;
     Endpoint.headers :=
       {[ "Content-Type" := "application/json"; "X-QuadKern-Key" := "k" ]};
     Endpoint.rateLimit := 5 |}.

Definition secondAttemptSucceeds (attempt : Z) : Endpoint.FetchResult :=
  if attempt =? 2 then Endpoint.Responded true 200 "OK" (inl "{}")
  else Endpoint.Responded false 503 "Service Unavailable" (inl "").

Definition callerOptions : Endpoint.RequestInit :=
  {| Endpoint.init_method := None;
     Endpoint.init_headers := Some {[ "Accept" := "application/json" ]};
     Endpoint.init_signal := None;
     Endpoint.init_body := None |}.

(** * Properties *)

(** ** Arithmetic of the hash and of the base-36 numeral *)

Section Int32.

Lemma toInt32_range z : - 2 ^ 31 <= toInt32 z < 2 ^ 31.
Proof.
  unfold toInt32.
  pose proof (Z.mod_pos_bound (z + 2 ^ 31) (2 ^ 32) ltac:(lia)). lia.
Qed.

Lemma toInt32_mod z : toInt32 z mod (2 ^ 32) = z mod (2 ^ 32).
Proof.
  unfold toInt32.
  rewrite Zminus_mod_idemp_l.
  f_equal. lia.
Qed.

Lemma toInt32_congr a b : a mod (2 ^ 32) = b mod (2 ^ 32) -> toInt32 a = toInt32 b.
Proof.
  intros H. unfold toInt32.
  rewrite (Z.add_mod a), (Z.add_mod b), H by lia. reflexivity.
Qed.

Lemma toInt32_small z : - 2 ^ 31 <= z < 2 ^ 31 -> toInt32 z = z.
Proof.
  intros H. unfold toInt32. rewrite Z.mod_small; lia.
Qed.

(** The two statements of the loop body amount to one multiplication by
    32, one subtraction and one addition modulo 2^32. *)
Lemma hashStep_closed hash char :
  hashStep hash char = toInt32 (hash * 32 - hash + char).
Proof.
  unfold hashStep, Js.bitand, Js.shl.
  rewrite Z.land_diag.
  change (Z.land 5 31) with 5. rewrite Z.shiftl_mul_pow2 by lia.
  change (2 ^ 5) with 32.
  apply toInt32_congr.
  rewrite (Z.add_mod (_ - hash)), (Zminus_mod _ hash), toInt32_mod by lia.
  rewrite (Z.mul_mod (toInt32 hash)), toInt32_mod by lia.
  rewrite <- Z.mul_mod, <- Zminus_mod, <- Z.add_mod by lia.
  reflexivity.
Qed.

Lemma hashStep_times31 hash char :
  hashStep hash char = toInt32 (31 * hash + char).
Proof. rewrite hashStep_closed. f_equal. lia. Qed.

Lemma hashLoop_closed codes :
  hashLoop codes =
  fold_left (fun hash char => toInt32 (hash * 32 - hash + char)) codes 0.
Proof.
  unfold hashLoop. generalize 0.
  induction codes as [|c codes IH]; intros h; simpl.
  - reflexivity.
  - rewrite hashStep_closed. apply IH.
Qed.

Lemma hashLoop_range codes : - 2 ^ 31 <= hashLoop codes < 2 ^ 31.
Proof.
  unfold hashLoop.
  assert (H0 : - 2 ^ 31 <= 0 < 2 ^ 31) by lia.
  revert H0. generalize 0.
  induction codes as [|c codes IH]; intros h Hh; simpl.
  - exact Hh.
  - apply IH. rewrite hashStep_closed. apply toInt32_range.
Qed.

End Int32.

Section Base36.

Lemma digitValue_digit36 d : 0 <= d < 36 -> digitValue (digit36 d) = d.
Proof.
  intros Hd.
  rewrite <- (Z2Nat.id d) by lia.
  assert (Hn : (Z.to_nat d < 36)%nat) by lia.
  generalize dependent (Z.to_nat d). clear d Hd. intros n Hn.
  do 36 (destruct n as [|n]; [reflexivity|]).
  lia.
Qed.

Lemma parse36_from_cons c acc v :
  parse36_from (String c acc) v = parse36_from acc (v * 36 + digitValue c).
Proof. reflexivity. Qed.

Lemma parse36_toString36_from fuel :
  forall n acc, 0 <= n < 36 ^ (Z.of_nat fuel + 1) ->
  exists k : nat, forall v,
    parse36_from (toString36_from fuel n acc) v
    = parse36_from acc (v * 36 ^ Z.of_nat k + n).
Proof.
  induction fuel as [|fuel IH]; intros n acc Hn.
  - exists 1%nat. intros v. cbn [toString36_from].
    rewrite parse36_from_cons, Z.mod_small, digitValue_digit36 by (simpl in Hn; lia).
    f_equal.
  - cbn [toString36_from]. destruct (Z.ltb_spec n 36) as [Hlt|Hge].
    + exists 1%nat. intros v.
      rewrite parse36_from_cons, Z.mod_small, digitValue_digit36 by lia.
      f_equal.
    + assert (Hq : 0 <= n / 36 < 36 ^ (Z.of_nat fuel + 1)).
      { split; [apply Z.div_pos; lia|].
        apply Z.div_lt_upper_bound; [lia|].
        replace (Z.of_nat (S fuel) + 1) with (Z.succ (Z.of_nat fuel + 1)) in Hn by lia.
        rewrite Z.pow_succ_r in Hn by lia. lia. }
      destruct (IH (n / 36) (String (digit36 (n mod 36)) acc) Hq) as [k Hk].
      exists (S k). intros v. rewrite Hk, parse36_from_cons.
      rewrite digitValue_digit36 by (apply Z.mod_pos_bound; lia).
      f_equal.
      rewrite Nat2Z.inj_succ, Z.pow_succ_r by lia.
      pose proof (Z.div_mod n 36 ltac:(lia)). lia.
Qed.

Lemma parse36_toString36 n : 0 <= n -> parse36 (toString36 n) = n.
Proof.
  intros Hn. unfold parse36, toString36.
  assert (Hb : 0 <= n < 36 ^ (Z.of_nat (Z.to_nat (Z.log2 n)) + 1)).
  { split; [assumption|].
    rewrite Z2Nat.id by apply Z.log2_nonneg.
    destruct (Z.eq_dec n 0) as [->|Hnz]; [reflexivity|].
    pose proof (Z.log2_spec n ltac:(lia)) as [_ Hlt].
    eapply Z.lt_le_trans; [exact Hlt|].
    rewrite <- Z.add_1_r.
    apply Z.pow_le_mono_l. pose proof (Z.log2_nonneg n). lia. }
  destruct (parse36_toString36_from _ n "" Hb) as [k Hk].
  rewrite Hk. reflexivity.
Qed.

End Base36.

(** ** The fingerprint *)

(** C6, as stated, fails: the claimed recurrence [hash*31 - hash + charCode]
    multiplies by 30, while the loop computes [(hash << 5) - hash + char],
    which multiplies by 31.  On the sample browser the two produce
    different keys, and already one step from [hash = 1] differs. *)
Lemma computeKey_recurrence_counterexample :
  hashStep 1 0 = 31 /\ spec_hashStep 1 0 = 30 /\
  generateFingerprint sampleBrowser = Return "8pnidv" /\
  spec_computeKey sampleBrowser = "hvvlyd" /\
  generateFingerprint sampleBrowser <> Return (spec_computeKey sampleBrowser).
Proof.
  repeat split; try (vm_compute; reflexivity).
  vm_compute. discriminate.
Qed.

(** C6 (amended): when the 2D context exists, [generateFingerprint] joins
    the five environment attributes with ['|'], folds the code units of
    that text from 0 by [hash = hash*32 - hash + charCode] (that is
    [31*hash + charCode]) wrapped to a signed 32-bit integer at each step,
    and returns the base-36 numeral of the absolute value of the final
    hash: the key reads back as that absolute value, which is at most
    2^31. *)
Theorem generateFingerprint_rolling_hash env :
  getContext2d env = true ->
  let text :=
    String.concat "|"
      [ userAgent env; language env;
        numberToString (screenWidth env) ++ "x" ++ numberToString (screenHeight env);
        numberToString (timezoneOffset env); toDataURL env ] in
  let hash :=
    fold_left (fun hash char => toInt32 (hash * 32 - hash + char))
              (charCodes text) 0 in
  generateFingerprint env = Return (toString36 (Z.abs hash)) /\
  (forall h c, toInt32 (h * 32 - h + c) = toInt32 (31 * h + c)) /\
  parse36 (toString36 (Z.abs hash)) = Z.abs hash /\
  0 <= Z.abs hash <= 2 ^ 31.
Proof.
  intros Hctx text hash.
  assert (Hh : hash = hashLoop (charCodes (fingerprintText env))).
  { symmetry. apply hashLoop_closed. }
  split; [|split; [|split]].
  - unfold generateFingerprint. rewrite Hctx. cbv zeta. now rewrite <- Hh.
  - intros h c. f_equal. lia.
  - apply parse36_toString36. lia.
  - pose proof (hashLoop_range (charCodes (fingerprintText env))).
    rewrite <- Hh in H. lia.
Qed.

Lemma generateFingerprint_rolling_hash_witness :
  generateFingerprint sampleBrowser = Return "8pnidv" /\
  parse36 "8pnidv" = 526816723.
Proof.
  pose proof (generateFingerprint_rolling_hash sampleBrowser eq_refl) as H.
  cbv zeta in H. destruct H as [H1 [_ [H2 _]]].
  split.
  - rewrite H1. vm_compute. reflexivity.
  - vm_compute. reflexivity.
Defined.

(** C8, as stated, fails: without a 2D context the call does fail, but
    the error is the TypeError of the dereference [ctx!.textBaseline],
    not a CapabilityUnavailable condition, which the source never
    raises. *)
Lemma no_CapabilityUnavailable_counterexample :
  getContext2d noCanvasBrowser = false /\
  ~ (exists e, generateFingerprint noCanvasBrowser = Throw e /\
               CapabilityUnavailable e).
Proof.
  split; [reflexivity|].
  intros [e [He Hcap]]. vm_compute in He.
  injection He as <-. vm_compute in Hcap. discriminate.
Qed.

Lemma step_throws_of_fingerprint env e this :
  generateFingerprint env = Throw e ->
  (forall now, checkRateLimit env now this = (Throw e, this)) /\
  isBlocked env this = (Throw e, this) /\
  (forall now, getRemainingRequests env now this = (Throw e, this)) /\
  (forall now, getTimeUntilReset env now this = (Throw e, this)).
Proof.
  intros Hfp.
  unfold checkRateLimit, isBlocked, getRemainingRequests, getTimeUntilReset,
    bind, lift, getClientIP.
  rewrite Hfp. repeat split.
Qed.

(** C8 (amended): if the 2D canvas context is unavailable,
    [generateFingerprint] produces no key but throws a TypeError, and that
    error propagates unchanged through [getClientIP] to the caller of
    [checkRateLimit], [isBlocked], [getRemainingRequests] and
    [getTimeUntilReset], none of which touches the limiter's state. *)
Theorem generateFingerprint_without_canvas env :
  getContext2d env = false ->
  generateFingerprint env = Throw TypeError /\
  errorName TypeError = "TypeError" /\
  getClientIP env = Throw TypeError /\
  forall this,
    (forall now, checkRateLimit env now this = (Throw TypeError, this)) /\
    isBlocked env this = (Throw TypeError, this) /\
    (forall now, getRemainingRequests env now this = (Throw TypeError, this)) /\
    (forall now, getTimeUntilReset env now this = (Throw TypeError, this)).
Proof.
  intros Hctx.
  assert (Hfp : generateFingerprint env = Throw TypeError).
  { unfold generateFingerprint. now rewrite Hctx. }
  repeat split; try assumption; try reflexivity;
    intros; now apply (step_throws_of_fingerprint env TypeError this Hfp).
Qed.

Lemma generateFingerprint_without_canvas_witness :
  generateFingerprint noCanvasBrowser = Throw TypeError /\
  checkRateLimit noCanvasBrowser 0 scenarioLimiter = (Throw TypeError, scenarioLimiter).
Proof.
  pose proof (generateFingerprint_without_canvas noCanvasBrowser eq_refl)
    as [H1 [_ [_ H2]]].
  split; [exact H1|].
  apply (H2 scenarioLimiter).
Defined.

(** ** One call of [checkRateLimit] *)

Lemma isKey_true key env : isKey key env = true <-> generateFingerprint env = Return key.
Proof.
  unfold isKey. destruct (generateFingerprint env) as [k|e].
  - rewrite String.eqb_eq. split; [now intros ->|now intros [= ->]].
  - split; discriminate.
Qed.

Lemma checkRateLimit_blocked env now this key :
  generateFingerprint env = Return key ->
  key ∈ blockedIPs this ->
  checkRateLimit env now this = (Return false, this).
Proof.
  intros Hfp Hin. unfold checkRateLimit, bind, lift, getClientIP, get.
  rewrite Hfp. now rewrite bool_decide_eq_true_2.
Qed.

Lemma checkRateLimit_open env now this key :
  generateFingerprint env = Return key ->
  key ∉ blockedIPs this ->
  checkRateLimit env now this =
    if Z.of_nat (length (kept key now this)) >=? maxRequests (config this)
    then (Return false, denied key now this)
    else (Return true, admitted key now this).
Proof.
  intros Hfp Hout.
  unfold checkRateLimit, bind, lift, getClientIP, get.
  rewrite Hfp. rewrite bool_decide_eq_false_2 by assumption.
  unfold admitted, denied, kept, requestsOf, clientOf.
  destruct this as [cfg cl bl su ti co]; simpl in *.
  destruct (cl !! key) as [client|] eqn:Hlk; simpl;
    destruct (_ >=? _);
    cbv [blockClient setTimeout console_warn clients_set bind modify get ret
         set_clients set_blockedIPs set_suspiciousIPs set_timeouts set_console];
    simpl; rewrite ?insert_insert_eq;
    try destruct (enableLogging cfg); reflexivity.
Qed.

Lemma requestsOf_admitted key now this :
  requestsOf key (admitted key now this) = (kept key now this ++ [now])%list.
Proof.
  unfold requestsOf, admitted. simpl. now rewrite lookup_insert_eq.
Qed.

Lemma requestsOf_denied key now this :
  requestsOf key (denied key now this) = kept key now this.
Proof.
  unfold requestsOf, denied. simpl. now rewrite lookup_insert_eq.
Qed.

Lemma requestsOf_admitted_ne key key' now this :
  key <> key' -> requestsOf key' (admitted key now this) = requestsOf key' this.
Proof.
  intros Hne. unfold requestsOf, admitted. simpl. now rewrite lookup_insert_ne.
Qed.

Lemma requestsOf_denied_ne key key' now this :
  key <> key' -> requestsOf key' (denied key now this) = requestsOf key' this.
Proof.
  intros Hne. unfold requestsOf, denied. simpl. now rewrite lookup_insert_ne.
Qed.

(** ** The reads leave the state alone *)

Lemma isBlocked_state env this : snd (isBlocked env this) = this.
Proof.
  unfold isBlocked, bind, lift, get, ret.
  destruct (getClientIP env); reflexivity.
Qed.

Lemma getRemainingRequests_state env now this :
  snd (getRemainingRequests env now this) = this.
Proof.
  unfold getRemainingRequests, bind, lift, get, ret.
  destruct (getClientIP env) as [key|]; [|reflexivity].
  destruct (clients this !! key); reflexivity.
Qed.

Lemma getTimeUntilReset_state env now this :
  snd (getTimeUntilReset env now this) = this.
Proof.
  unfold getTimeUntilReset, bind, lift, get, ret.
  destruct (getClientIP env) as [key|]; [|reflexivity].
  destruct (clients this !! key) as [client|]; [|reflexivity].
  destruct (requests client); reflexivity.
Qed.

Lemma getStats_state this : snd (getStats this) = this.
Proof. reflexivity. Qed.

(** ** The timer callbacks *)

Lemma timeoutFires_cases i now this :
  snd (timeoutFires i now this) = this \/
  exists due key,
    timeouts this !! i = Some (due, key) /\ due <= now /\
    snd (timeoutFires i now this) =
      set_blockedIPs (blockedIPs this ∖ {[key]})
        (set_timeouts (delete i (timeouts this)) this).
Proof.
  unfold timeoutFires, bind, get, ret, modify.
  destruct (timeouts this !! i) as [[due key]|] eqn:Hi; [|now left].
  destruct (due <=? now) eqn:Hdue; [|now left].
  right. exists due, key. repeat split. lia.
Qed.

Lemma timeoutFires_frame i now this :
  config (snd (timeoutFires i now this)) = config this /\
  clients (snd (timeoutFires i now this)) = clients this /\
  suspiciousIPs (snd (timeoutFires i now this)) = suspiciousIPs this /\
  console (snd (timeoutFires i now this)) = console this /\
  blockedIPs (snd (timeoutFires i now this)) ⊆ blockedIPs this.
Proof.
  destruct (timeoutFires_cases i now this) as [->|(due & key & _ & _ & ->)].
  - repeat split; reflexivity.
  - simpl. repeat split. apply subseteq_difference_l. reflexivity.
Qed.

Lemma requestsOf_cleanup key now this :
  requestsOf key (snd (cleanup now this)) =
  List.filter (fun timestamp => now - windowMs (config this) * 2 <? timestamp)
              (requestsOf key this).
Proof.
  unfold requestsOf, cleanup, modify. simpl.
  rewrite lookup_omap.
  destruct (clients this !! key) as [client|]; simpl; [|reflexivity].
  destruct (List.filter _ (requests client)); reflexivity.
Qed.

Lemma cleanup_frame now this :
  config (snd (cleanup now this)) = config this /\
  blockedIPs (snd (cleanup now this)) = blockedIPs this /\
  suspiciousIPs (snd (cleanup now this)) = suspiciousIPs this /\
  timeouts (snd (cleanup now this)) = timeouts this /\
  console (snd (cleanup now this)) = console this.
Proof. repeat split. Qed.

(** ** C5 *)

(** C5: for a key in the blocked-set, [checkRateLimit] returns [false]
    whatever timestamps are recorded for the key, and leaves the whole
    state as it was: the key's record is neither pruned nor extended, and
    no record is created when there was none. *)
Theorem blocked_key_rejected_untouched env key now this :
  generateFingerprint env = Return key ->
  key ∈ blockedIPs this ->
  checkRateLimit env now this = (Return false, this) /\
  clients (snd (checkRateLimit env now this)) !! key = clients this !! key /\
  requestsOf key (snd (checkRateLimit env now this)) = requestsOf key this.
Proof.
  intros Hfp Hin.
  rewrite (checkRateLimit_blocked env now this key Hfp Hin).
  repeat split.
Qed.

Lemma sampleKey_fingerprint : generateFingerprint sampleBrowser = Return sampleKey.
Proof. vm_compute. reflexivity. Qed.

Lemma blocked_key_rejected_untouched_witness :
  let this := after [call 0; call 100; call 200; call 300] scenarioLimiter in
  sampleKey ∈ blockedIPs this /\
  checkRateLimit sampleBrowser 4999 this = (Return false, this).
Proof.
  intros this.
  assert (Hin : sampleKey ∈ blockedIPs this).
  { apply (bool_decide_eq_true_1 (sampleKey ∈ blockedIPs this)).
    vm_compute. reflexivity. }
  split; [exact Hin|].
  apply (blocked_key_rejected_untouched sampleBrowser sampleKey 4999 this
           sampleKey_fingerprint Hin).
Defined.

(** ** C1: a burst within one window *)

Lemma filter_all {A} (f : A -> bool) (l : list A) :
  Forall (fun x => f x = true) l -> List.filter f l = l.
Proof.
  induction 1 as [|x l Hx _ IH]; simpl; [reflexivity|].
  now rewrite Hx, IH.
Qed.

Lemma step_checkRateLimit env now this :
  step (CheckRateLimit env now) this =
  (match fst (checkRateLimit env now this) with
   | Return b => Return (VBool b)
   | Throw e => Throw e
   end, snd (checkRateLimit env now this)).
Proof.
  unfold step, bind, ret.
  destruct (checkRateLimit env now this) as [[b|e] this']; reflexivity.
Qed.

Lemma step_state ev this :
  snd (step ev this) =
  match ev with
  | CheckRateLimit env now => snd (checkRateLimit env now this)
  | UpdateConfig newConfig => snd (updateConfig newConfig this)
  | ClearBlockedIPs => snd (clearBlockedIPs this)
  | TimeoutFires i now => snd (timeoutFires i now this)
  | CleanupFires now => snd (cleanup now this)
  | _ => this
  end.
Proof.
  destruct ev as [env now|env|env now|env now|newConfig| | |i now|now];
    unfold step, bind, ret.
  - destruct (checkRateLimit env now this) as [[b|e] this']; reflexivity.
  - pose proof (isBlocked_state env this) as H.
    destruct (isBlocked env this) as [[b|e] this']; exact H.
  - pose proof (getRemainingRequests_state env now this) as H.
    destruct (getRemainingRequests env now this) as [[b|e] this']; exact H.
  - pose proof (getTimeUntilReset_state env now this) as H.
    destruct (getTimeUntilReset env now this) as [[b|e] this']; exact H.
  - reflexivity.
  - reflexivity.
  - reflexivity.
  - destruct (timeoutFires i now this) as [[b|e] this']; reflexivity.
  - reflexivity.
Qed.

Section Burst.

Variables (key : string) (lo hi : Z) (cfg : RateLimitConfig).
Hypothesis Hspan : hi - lo < windowMs cfg.

Lemma burst_kept n now this :
  burstInv key lo hi cfg n this -> lo <= now <= hi ->
  kept key now this = requestsOf key this.
Proof.
  intros (Hcfg & _ & _ & Hall) Hnow. unfold kept.
  apply filter_all. rewrite Hcfg.
  eapply Forall_impl; [exact Hall|].
  intros ts Hts. simpl in Hts. apply Z.ltb_lt. lia.
Qed.

Lemma burst_admitted n now this :
  burstInv key lo hi cfg n this -> lo <= now <= hi ->
  burstInv key lo hi cfg (n + 1) (admitted key now this).
Proof.
  intros Hinv Hnow.
  pose proof (burst_kept n now this Hinv Hnow) as Hkept.
  destruct Hinv as (Hcfg & Hout & Hlen & Hall).
  unfold burstInv. rewrite requestsOf_admitted, Hkept.
  repeat split; try assumption.
  - rewrite length_app. simpl. lia.
  - apply Forall_app. split; [assumption|]. constructor; [lia|constructor].
Qed.

Lemma burst_background n ev this :
  burstInv key lo hi cfg n this ->
  inBurst key lo hi ev = true ->
  match ev with CheckRateLimit _ _ => False | _ => True end ->
  burstInv key lo hi cfg n (snd (step ev this)).
Proof.
  intros Hinv Hev Hbg. rewrite step_state.
  destruct ev as [env now|env|env now|env now|newConfig| | |i now|now];
    try contradiction; try discriminate; try exact Hinv.
  - pose proof (timeoutFires_frame i now this) as (Hc & Hcl & _ & _ & Hb).
    destruct Hinv as (Hcfg & Hout & Hlen & Hall).
    unfold burstInv, requestsOf. rewrite Hc, Hcl.
    repeat split; try assumption.
    intros Hin. apply Hout, Hb, Hin.
  - simpl in Hev. apply andb_prop in Hev as [Hlo Hhi].
    apply Z.leb_le in Hlo, Hhi.
    pose proof (cleanup_frame now this) as (Hc & Hb & _).
    destruct Hinv as (Hcfg & Hout & Hlen & Hall).
    assert (Hsame : requestsOf key (snd (cleanup now this)) = requestsOf key this).
    { rewrite requestsOf_cleanup. apply filter_all. rewrite Hcfg.
      eapply Forall_impl; [exact Hall|].
      intros ts Hts. simpl in Hts. apply Z.ltb_lt. lia. }
    unfold burstInv. rewrite Hsame, Hc, Hb. repeat split; assumption.
Qed.

Lemma burst_verdicts evs :
  forall n this,
    burstInv key lo hi cfg n this ->
    forallb (inBurst key lo hi) evs = true ->
    forall i : nat,
      (i < length (verdicts evs this))%nat ->
      n + Z.of_nat i <= maxRequests cfg ->
      verdicts evs this !! i
      = Some (Return (VBool (n + Z.of_nat i <? maxRequests cfg))).
Proof.
  induction evs as [|ev evs IH]; intros n this Hinv Hevs i Hi Hle.
  - simpl in Hi. lia.
  - simpl in Hevs. apply andb_prop in Hevs as [Hev Hevs].
    destruct ev as [env now|env|env now|env now|newConfig| | |j now|now];
      try (cbn [verdicts] in *;
           apply (IH n); [apply burst_background; [assumption..|exact I]|assumption..]).
    cbn [verdicts] in *. rewrite step_checkRateLimit in *. cbn [fst snd] in *.
    simpl in Hev. apply andb_prop in Hev as [Hev Hhi].
    apply andb_prop in Hev as [Hkey Hlo].
    apply isKey_true in Hkey. apply Z.leb_le in Hlo, Hhi.
    pose proof (burst_kept n now this Hinv (conj Hlo Hhi)) as Hkept.
    pose proof Hinv as (Hcfg & Hout & Hlen & Hall).
    rewrite (checkRateLimit_open env now this key Hkey Hout) in *.
    rewrite Hkept, Hlen, Hcfg in *.
    destruct (Z.geb_spec n (maxRequests cfg)) as [Hge|Hlt]; cbn [fst snd] in *.
    + destruct i as [|i]; [|lia].
      simpl. do 3 f_equal. symmetry. apply Z.ltb_ge. lia.
    + destruct i as [|i].
      * simpl. do 3 f_equal. symmetry. apply Z.ltb_lt. lia.
      * simpl. simpl in Hi.
        replace (n + Z.of_nat (S i)) with ((n + 1) + Z.of_nat i) by lia.
        apply IH; [apply burst_admitted; auto|assumption|lia|lia].
Qed.

End Burst.

(** C1: take a configuration with [maxRequests >= 1] and a key with no
    record and no block.  In any sequence of [checkRateLimit] calls for
    that key, all issued at instants within a span [lo..hi] shorter than
    [windowMs] (reads and timer callbacks may run in between), each of the
    first [maxRequests] calls returns [true] and the next one returns
    [false]: the call of index [i], counted from 0, returns
    [i < maxRequests] for every [i <= maxRequests]. *)
Theorem burst_admits_maxRequests_then_denies key lo hi this evs (i : nat) :
  1 <= maxRequests (config this) ->
  clients this !! key = None ->
  key ∉ blockedIPs this ->
  hi - lo < windowMs (config this) ->
  forallb (inBurst key lo hi) evs = true ->
  (i < length (verdicts evs this))%nat ->
  Z.of_nat i <= maxRequests (config this) ->
  verdicts evs this !! i
  = Some (Return (VBool (Z.of_nat i <? maxRequests (config this)))).
Proof.
  intros _ Hnone Hout Hspan Hevs Hi Hle.
  apply (burst_verdicts key lo hi (config this) Hspan evs 0 this); try assumption.
  unfold burstInv, requestsOf. rewrite Hnone. repeat split; [assumption|constructor].
Qed.

Lemma burst_admits_maxRequests_then_denies_witness :
  let evs := [call 0; call 100; CleanupFires 150; call 200;
              GetRemainingRequests sampleBrowser 250; call 300] in
  verdicts evs scenarioLimiter !! 2%nat = Some (Return (VBool true)) /\
  verdicts evs scenarioLimiter !! 3%nat = Some (Return (VBool false)).
Proof.
  intros evs.
  assert (Hout : sampleKey ∉ blockedIPs scenarioLimiter) by (simpl; set_solver).
  split.
  - apply (burst_admits_maxRequests_then_denies sampleKey 0 300 scenarioLimiter evs 2);
      first [assumption | reflexivity | (vm_compute; lia) | (simpl; lia) | (vm_compute; discriminate)].
  - apply (burst_admits_maxRequests_then_denies sampleKey 0 300 scenarioLimiter evs 3);
      first [assumption | reflexivity | (vm_compute; lia) | (simpl; lia) | (vm_compute; discriminate)].
Defined.

(** ** C3: when the block is installed *)

(** C3, as stated, fails: with [maxRequests = 3], a key that has
    [maxRequests - 1 = 2] timestamps in its window and is not blocked is
    admitted by the next call, and stays out of the blocked-set. *)
Lemma open_to_blocked_counterexample :
  let this := after [call 0; call 100] scenarioLimiter in
  maxRequests (config this) = 3 /\
  kept sampleKey 200 this = [0; 100] /\
  bool_decide (sampleKey ∈ blockedIPs this) = false /\
  fst (checkRateLimit sampleBrowser 200 this) = Return true /\
  bool_decide
    (sampleKey ∈ blockedIPs (snd (checkRateLimit sampleBrowser 200 this))) = false.
Proof. vm_compute. repeat split. Qed.

(** C3 (amended): the Open-to-Blocked transition fires on the call that
    finds the trailing-window count already at [maxRequests] (or above):
    if a key is not blocked and has [maxRequests] or more non-stale
    timestamps, the next [checkRateLimit] call for it returns [false] and
    moves it into the blocked-set; if it has [maxRequests - 1] of them,
    the call is admitted, the key stays unblocked and its count becomes
    [maxRequests]. *)
Theorem open_to_blocked_at_full_window env key now this :
  generateFingerprint env = Return key ->
  key ∉ blockedIPs this ->
  let count := Z.of_nat (length (kept key now this)) in
  let next := snd (checkRateLimit env now this) in
  (maxRequests (config this) <= count ->
     fst (checkRateLimit env now this) = Return false /\
     key ∈ blockedIPs next) /\
  (count = maxRequests (config this) - 1 ->
     fst (checkRateLimit env now this) = Return true /\
     (key ∉ blockedIPs next) /\
     Z.of_nat (length (requestsOf key next)) = maxRequests (config this)).
Proof.
  intros Hfp Hout count next. subst count next.
  rewrite (checkRateLimit_open env now this key Hfp Hout).
  split; intros Hcount.
  - destruct (Z.geb_spec (Z.of_nat (length (kept key now this)))
                         (maxRequests (config this))); [|lia].
    split; [reflexivity|]. simpl. set_solver.
  - destruct (Z.geb_spec (Z.of_nat (length (kept key now this)))
                         (maxRequests (config this))); [lia|].
    cbn [fst snd]. split; [reflexivity|]. split; [exact Hout|].
    rewrite requestsOf_admitted, length_app. simpl. lia.
Qed.

Lemma open_to_blocked_at_full_window_witness :
  let full := after [call 0; call 100; call 200] scenarioLimiter in
  let almost := after [call 0; call 100] scenarioLimiter in
  (fst (checkRateLimit sampleBrowser 300 full) = Return false /\
   sampleKey ∈ blockedIPs (snd (checkRateLimit sampleBrowser 300 full))) /\
  fst (checkRateLimit sampleBrowser 200 almost) = Return true.
Proof.
  intros full almost.
  assert (Hfull : sampleKey ∉ blockedIPs full).
  { apply (bool_decide_eq_false_1 (sampleKey ∈ blockedIPs full)).
    vm_compute. reflexivity. }
  assert (Halmost : sampleKey ∉ blockedIPs almost).
  { apply (bool_decide_eq_false_1 (sampleKey ∈ blockedIPs almost)).
    vm_compute. reflexivity. }
  split.
  - apply (open_to_blocked_at_full_window sampleBrowser sampleKey 300 full
             sampleKey_fingerprint Hfull).
    vm_compute. discriminate.
  - apply (open_to_blocked_at_full_window sampleBrowser sampleKey 200 almost
             sampleKey_fingerprint Halmost).
    vm_compute. reflexivity.
Defined.

(** ** C2: the concrete scenario *)

(** C2, as stated, fails at its last step: the block installed by the
    call at t = 300 lasts until 300 + 5000 = 5300, so the call at
    t = 5001 is still rejected, even when the event loop gets to run
    every due timeout callback before each call. *)
Lemma scenario_5001_counterexample :
  verdicts [call 0; call 100; call 200; call 300;
            TimeoutFires 0 4999; call 4999;
            TimeoutFires 0 5001; call 5001] scenarioLimiter
  = [Return (VBool true); Return (VBool true); Return (VBool true);
     Return (VBool false); Return (VBool false); Return (VBool false)] /\
  timeouts (after [call 0; call 100; call 200; call 300] scenarioLimiter)
  = [(5300, sampleKey)].
Proof. vm_compute. split; reflexivity. Qed.

(** C2 (amended): for a fresh limiter with [maxRequests = 3],
    [windowMs = 1000], [blockDurationMs = 5000] and one key, the calls at
    t = 0, 100, 200 return [true]; the call at t = 300 returns [false]
    and the key becomes blocked, with its unblocking due at t = 5300; the
    calls at t = 4999 and t = 5001 return [false]; once the timeout
    callback has run at t = 5300, the call at t = 5301 returns [true] and
    the key's window holds that one request. *)
Theorem scenario_3_1000_5000 :
  let upTo300 := [call 0; call 100; call 200; call 300] in
  let rest := [TimeoutFires 0 4999; call 4999; TimeoutFires 0 5001; call 5001;
               TimeoutFires 0 5300; call 5301] in
  verdicts (upTo300 ++ rest) scenarioLimiter
  = [Return (VBool true); Return (VBool true); Return (VBool true);
     Return (VBool false); Return (VBool false); Return (VBool false);
     Return (VBool true)] /\
  bool_decide (sampleKey ∈ blockedIPs (after upTo300 scenarioLimiter)) = true /\
  timeouts (after upTo300 scenarioLimiter) = [(5300, sampleKey)] /\
  requestsOf sampleKey (after (upTo300 ++ rest) scenarioLimiter) = [5301] /\
  bool_decide (sampleKey ∈ blockedIPs (after (upTo300 ++ rest) scenarioLimiter))
  = false.
Proof. vm_compute. repeat split. Qed.

(** ** C7: the time until the window resets *)

Lemma minOf_spec rs : forall r,
  In (minOf r rs) (r :: rs) /\ Forall (fun x => minOf r rs <= x) (r :: rs).
Proof.
  unfold minOf.
  induction rs as [|x rs IH]; intros r.
  - simpl. split; [now left|]. constructor; [lia|constructor].
  - cbn [fold_left]. destruct (IH (Z.min r x)) as [Hin Hle].
    remember (fold_left Z.min rs (Z.min r x)) as m eqn:Hm. clear Hm. split.
    + destruct Hin as [Hhd|Htl].
      * destruct (Z.min_spec r x) as [[_ Hmin]|[_ Hmin]].
        -- left. congruence.
        -- right. left. congruence.
      * right. right. exact Htl.
    + apply Forall_cons in Hle as [Hhd Htl].
      constructor; [lia|]. constructor; [lia|exact Htl].
Qed.

Lemma minOf_snoc r rs x : minOf r (rs ++ [x]) = Z.min (minOf r rs) x.
Proof. unfold minOf. now rewrite fold_left_app. Qed.

(** The value [getTimeUntilReset] returns at [now] for a key. *)
Lemma getTimeUntilReset_value env key now this :
  generateFingerprint env = Return key ->
  getTimeUntilReset env now this =
  (Return match requestsOf key this with
          | [] => 0
          | r :: rs => Z.max 0 (windowMs (config this) - (now - minOf r rs))
          end, this).
Proof.
  intros Hfp. unfold getTimeUntilReset, bind, lift, getClientIP, get, ret, requestsOf.
  rewrite Hfp.
  destruct (clients this !! key) as [client|]; [|reflexivity].
  destruct (requests client); reflexivity.
Qed.

(** C7, as stated, fails in its last part: with [windowMs = 1000], after
    calls at 0 and 500 the call at 1000 prunes the oldest timestamp (0),
    and the time until reset is then 500, not [windowMs]. *)
Lemma reset_after_prune_counterexample :
  let this := after [call 0; call 500] scenarioLimiter in
  let next := snd (checkRateLimit sampleBrowser 1000 this) in
  windowMs (config this) = 1000 /\
  requestsOf sampleKey this = [0; 500] /\
  fst (checkRateLimit sampleBrowser 1000 this) = Return true /\
  requestsOf sampleKey next = [500; 1000] /\
  fst (getTimeUntilReset sampleBrowser 1000 next) = Return 500.
Proof. vm_compute. repeat split. Qed.

(** C7 (amended): [getTimeUntilReset] returns
    [max(0, windowMs - (now - oldest))], where [oldest] is the least
    recorded timestamp of the key, and 0 when the key has no record or no
    timestamp.  For an unchanged record the value is non-negative and
    non-increasing as [now] advances.  After a [checkRateLimit] call at
    [now] that prunes and admits, the value at [now] is [windowMs] when
    every earlier timestamp was pruned (and [windowMs >= 0]); when some
    timestamp survives it is [max(0, windowMs - (now - oldest survivor))],
    the survivor being compared with [now] itself. *)
Theorem timeUntilReset_monotone_and_reset env key this :
  generateFingerprint env = Return key ->
  let W := windowMs (config this) in
  (forall now,
     fst (getTimeUntilReset env now this)
     = Return match requestsOf key this with
              | [] => 0
              | r :: rs => Z.max 0 (W - (now - minOf r rs))
              end) /\
  (forall r rs, requestsOf key this = r :: rs ->
     In (minOf r rs) (r :: rs) /\ Forall (fun x => minOf r rs <= x) (r :: rs)) /\
  (forall now1 now2 v1 v2,
     now1 <= now2 ->
     fst (getTimeUntilReset env now1 this) = Return v1 ->
     fst (getTimeUntilReset env now2 this) = Return v2 ->
     0 <= v2 <= v1) /\
  (forall now,
     key ∉ blockedIPs this ->
     fst (checkRateLimit env now this) = Return true ->
     let next := snd (checkRateLimit env now this) in
     (kept key now this = [] -> 0 <= W ->
        fst (getTimeUntilReset env now next) = Return W) /\
     (forall k ks, kept key now this = k :: ks ->
        fst (getTimeUntilReset env now next)
        = Return (Z.max 0 (W - (now - Z.min (minOf k ks) now))))).
Proof.
  intros Hfp W. subst W. repeat split.
  - intros now. now rewrite (getTimeUntilReset_value env key now this Hfp).
  - apply minOf_spec.
  - apply minOf_spec.
  - rewrite (getTimeUntilReset_value env key now2 this Hfp) in H1.
    cbn [fst] in H1. injection H1 as <-.
    destruct (requestsOf key this); lia.
  - rewrite (getTimeUntilReset_value env key now1 this Hfp) in H0.
    rewrite (getTimeUntilReset_value env key now2 this Hfp) in H1.
    cbn [fst] in *. injection H0 as <-. injection H1 as <-.
    destruct (requestsOf key this); lia.
  - intros Hkept HW.
    rewrite (checkRateLimit_open env now this key Hfp H) in *.
    destruct (_ >=? _); [discriminate|]. cbn [fst snd].
    rewrite (getTimeUntilReset_value env key now _ Hfp). cbn [fst].
    rewrite requestsOf_admitted, Hkept. simpl. unfold minOf. simpl.
    f_equal. lia.
  - intros k ks Hkept.
    rewrite (checkRateLimit_open env now this key Hfp H) in *.
    destruct (_ >=? _); [discriminate|]. cbn [fst snd].
    rewrite (getTimeUntilReset_value env key now _ Hfp). cbn [fst].
    rewrite requestsOf_admitted, Hkept. simpl.
    now rewrite minOf_snoc.
Qed.

Lemma timeUntilReset_monotone_and_reset_witness :
  let this := after [call 0; call 500] scenarioLimiter in
  fst (getTimeUntilReset sampleBrowser 600 this) = Return 400 /\
  fst (getTimeUntilReset sampleBrowser 2000
         (snd (checkRateLimit sampleBrowser 2000 this))) = Return 1000.
Proof.
  intros this.
  pose proof (timeUntilReset_monotone_and_reset sampleBrowser sampleKey this
                sampleKey_fingerprint) as (Hval & _ & _ & Hreset).
  split.
  - rewrite Hval. vm_compute. reflexivity.
  - assert (Hout : sampleKey ∉ blockedIPs this).
    { apply (bool_decide_eq_false_1 (sampleKey ∈ blockedIPs this)).
      vm_compute. reflexivity. }
    assert (Hadm : fst (checkRateLimit sampleBrowser 2000 this) = Return true)
      by (vm_compute; reflexivity).
    destruct (Hreset 2000 Hout Hadm) as [Hall _].
    apply Hall; [vm_compute; reflexivity | vm_compute; discriminate].
Defined.

(** ** C10: the reads are pure *)

(** C10: [getRemainingRequests] and [getTimeUntilReset] return the state
    they were given: configuration, client map with every stored
    timestamp list, and blocked-set are unchanged.  Among all events only
    [checkRateLimit] and the cleanup sweep may change the client map; in
    particular a stale timestamp stays in the stored record across a read
    and is dropped by [checkRateLimit] or by the sweep. *)
Theorem reads_do_not_mutate :
  (forall env now this, snd (getRemainingRequests env now this) = this) /\
  (forall env now this, snd (getTimeUntilReset env now this) = this) /\
  (forall ev this,
     match ev with
     | CheckRateLimit _ _ | CleanupFires _ => True
     | _ => clients (snd (step ev this)) = clients this
     end) /\
  (let this := after [call 0] scenarioLimiter in
   requestsOf sampleKey this = [0] /\
   getRemainingRequests sampleBrowser 5000 this = (Return 3, this) /\
   requestsOf sampleKey (snd (getRemainingRequests sampleBrowser 5000 this)) = [0] /\
   requestsOf sampleKey (snd (getTimeUntilReset sampleBrowser 5000 this)) = [0] /\
   requestsOf sampleKey (snd (checkRateLimit sampleBrowser 5000 this)) = [5000] /\
   requestsOf sampleKey (snd (cleanup 5000 this)) = []).
Proof.
  split; [exact getRemainingRequests_state|].
  split; [exact getTimeUntilReset_state|].
  split.
  - intros ev this. rewrite step_state.
    destruct ev as [env now|env|env now|env now|newConfig| | |i now|now];
      try exact I; try reflexivity.
    apply timeoutFires_frame.
  - cbv zeta.
    assert (Hread : getRemainingRequests sampleBrowser 5000
                      (after [call 0] scenarioLimiter)
                    = (Return 3, after [call 0] scenarioLimiter)).
    { rewrite (surjective_pairing (getRemainingRequests _ _ _)).
      rewrite getRemainingRequests_state. f_equal. }
    rewrite getRemainingRequests_state, getTimeUntilReset_state.
    repeat split; try exact Hread; vm_compute; reflexivity.
Qed.

(** ** C9: the suspicious set is write-only *)

Lemma agree_refl_fields cfg cl bl su1 su2 ti co :
  agree {| config := cfg; clients := cl; blockedIPs := bl; suspiciousIPs := su1;
           timeouts := ti; console := co |}
        {| config := cfg; clients := cl; blockedIPs := bl; suspiciousIPs := su2;
           timeouts := ti; console := co |}.
Proof. repeat split. Qed.

Lemma checkRateLimit_agree env now s1 s2 :
  agree s1 s2 ->
  fst (checkRateLimit env now s1) = fst (checkRateLimit env now s2) /\
  agree (snd (checkRateLimit env now s1)) (snd (checkRateLimit env now s2)).
Proof.
  intros Hag.
  destruct (generateFingerprint env) as [key|e] eqn:Hfp.
  - destruct (decide (key ∈ blockedIPs s1)) as [Hin|Hout].
    + assert (Hin2 : key ∈ blockedIPs s2) by (destruct Hag as (_ & _ & <- & _); exact Hin).
      rewrite (checkRateLimit_blocked env now s1 key Hfp Hin).
      rewrite (checkRateLimit_blocked env now s2 key Hfp Hin2).
      split; [reflexivity|exact Hag].
    + assert (Hout2 : key ∉ blockedIPs s2) by (destruct Hag as (_ & _ & <- & _); exact Hout).
      rewrite (checkRateLimit_open env now s1 key Hfp Hout).
      rewrite (checkRateLimit_open env now s2 key Hfp Hout2).
      destruct s1 as [cfg cl bl su1 ti co], s2 as [cfg2 cl2 bl2 su2 ti2 co2].
      destruct Hag as (Hc & Hcl & Hb & Ht & Hco). simpl in *. subst.
      unfold kept, requestsOf. simpl.
      destruct (_ >=? _); split; try reflexivity; apply agree_refl_fields.
  - unfold checkRateLimit, bind, lift, getClientIP. rewrite Hfp.
    split; [reflexivity|exact Hag].
Qed.

Lemma reads_agree env s1 s2 :
  agree s1 s2 ->
  fst (isBlocked env s1) = fst (isBlocked env s2) /\
  (forall now, fst (getRemainingRequests env now s1)
               = fst (getRemainingRequests env now s2)) /\
  (forall now, fst (getTimeUntilReset env now s1)
               = fst (getTimeUntilReset env now s2)).
Proof.
  intros (Hc & Hcl & Hb & _).
  unfold isBlocked, getRemainingRequests, getTimeUntilReset, bind, lift, get, ret.
  destruct (getClientIP env) as [key|e]; [|repeat split].
  rewrite Hc, Hcl, Hb. repeat split.
  - intros now. now destruct (clients s2 !! key).
  - intros now. destruct (clients s2 !! key) as [client|]; [|reflexivity].
    now destruct (requests client).
Qed.

Lemma suspiciousIPs_blockClient key now this :
  suspiciousIPs (snd (blockClient key now this)) = {[key]} ∪ suspiciousIPs this.
Proof.
  unfold blockClient, bind, modify, get, setTimeout, console_warn, ret. simpl.
  destruct (enableLogging (config this)); reflexivity.
Qed.

Lemma suspiciousIPs_step ev this :
  suspiciousIPs (snd (step ev this)) = suspiciousIPs this \/
  (exists env now key,
     ev = CheckRateLimit env now /\ generateFingerprint env = Return key /\
     (key ∉ blockedIPs this) /\
     key ∈ blockedIPs (snd (step ev this)) /\
     suspiciousIPs (snd (step ev this)) = {[key]} ∪ suspiciousIPs this) \/
  (ev = ClearBlockedIPs /\ suspiciousIPs (snd (step ev this)) = ∅).
Proof.
  rewrite step_state.
  destruct ev as [env now|env|env now|env now|newConfig| | |i now|now];
    try (left; reflexivity).
  - destruct (generateFingerprint env) as [key|e] eqn:Hfp.
    + destruct (decide (key ∈ blockedIPs this)) as [Hin|Hout].
      * left. now rewrite (checkRateLimit_blocked env now this key Hfp Hin).
      * rewrite (checkRateLimit_open env now this key Hfp Hout).
        destruct (_ >=? _); [|left; reflexivity].
        right. left. exists env, now, key. simpl.
        repeat split; try assumption. set_solver.
    + left. unfold checkRateLimit, bind, lift, getClientIP. now rewrite Hfp.
  - right. right. split; reflexivity.
  - left. apply timeoutFires_frame.
Qed.

(** C9: for two states that differ only in [suspiciousIPs],
    [checkRateLimit], [isBlocked], [getRemainingRequests] and
    [getTimeUntilReset] return the same results and leave states that
    again differ only in [suspiciousIPs] (same client map, blocked-set,
    configuration and pending timeouts).  The set itself changes only
    when [checkRateLimit] blocks a key through [blockClient], which adds
    the key, and when [clearBlockedIPs] empties it; [getStats] reports its
    size. *)
Theorem suspiciousIPs_never_read s1 s2 :
  agree s1 s2 ->
  (forall env now,
     fst (checkRateLimit env now s1) = fst (checkRateLimit env now s2) /\
     agree (snd (checkRateLimit env now s1)) (snd (checkRateLimit env now s2))) /\
  (forall env,
     fst (isBlocked env s1) = fst (isBlocked env s2) /\
     agree (snd (isBlocked env s1)) (snd (isBlocked env s2))) /\
  (forall env now,
     fst (getRemainingRequests env now s1) = fst (getRemainingRequests env now s2) /\
     agree (snd (getRemainingRequests env now s1))
           (snd (getRemainingRequests env now s2))) /\
  (forall env now,
     fst (getTimeUntilReset env now s1) = fst (getTimeUntilReset env now s2) /\
     agree (snd (getTimeUntilReset env now s1))
           (snd (getTimeUntilReset env now s2))) /\
  (forall key now this,
     suspiciousIPs (snd (blockClient key now this)) = {[key]} ∪ suspiciousIPs this) /\
  (forall ev this,
     suspiciousIPs (snd (step ev this)) = suspiciousIPs this \/
     (exists env now key,
        ev = CheckRateLimit env now /\ generateFingerprint env = Return key /\
        (key ∉ blockedIPs this) /\
        key ∈ blockedIPs (snd (step ev this)) /\
        suspiciousIPs (snd (step ev this)) = {[key]} ∪ suspiciousIPs this) \/
     (ev = ClearBlockedIPs /\ suspiciousIPs (snd (step ev this)) = ∅)) /\
  (forall this,
     exists stats, fst (getStats this) = Return stats /\
                   suspiciousIPs_size stats = size (suspiciousIPs this)).
Proof.
  intros Hag.
  split; [intros env now; now apply checkRateLimit_agree|].
  split; [intros env; rewrite !isBlocked_state; split;
          [now apply reads_agree|exact Hag]|].
  split; [intros env now; rewrite !getRemainingRequests_state; split;
          [now apply reads_agree|exact Hag]|].
  split; [intros env now; rewrite !getTimeUntilReset_state; split;
          [now apply reads_agree|exact Hag]|].
  split; [exact suspiciousIPs_blockClient|].
  split; [exact suspiciousIPs_step|].
  intros this. eexists. split; reflexivity.
Qed.

Lemma suspiciousIPs_never_read_witness :
  let s1 := scenarioLimiter in
  let s2 := set_suspiciousIPs {["someone else"]} scenarioLimiter in
  fst (checkRateLimit sampleBrowser 300 s1) = fst (checkRateLimit sampleBrowser 300 s2)
  /\ blockedIPs (snd (checkRateLimit sampleBrowser 300 s1))
     = blockedIPs (snd (checkRateLimit sampleBrowser 300 s2)).
Proof.
  intros s1 s2.
  assert (Hag : agree s1 s2) by (repeat split).
  destruct (suspiciousIPs_never_read s1 s2 Hag) as [Hcheck _].
  destruct (Hcheck sampleBrowser 300) as [Hres (_ & _ & Hb & _)].
  split; [exact Hres|exact Hb].
Defined.

(** ** C4: how long a block lasts *)

Lemma after_cons ev evs this : after (ev :: evs) this = after evs (snd (step ev this)).
Proof. reflexivity. Qed.

Lemma Forall_list_filter {A} (P : A -> Prop) (f : A -> bool) (l : list A) :
  Forall P l -> Forall P (List.filter f l).
Proof.
  induction 1 as [|x l Hx _ IH]; simpl; [constructor|].
  destruct (f x); [constructor|]; assumption.
Qed.

Lemma filter_none {A} (f : A -> bool) (l : list A) :
  Forall (fun x => f x = false) l -> List.filter f l = [].
Proof.
  induction 1 as [|x l Hx _ IH]; simpl; [reflexivity|].
  now rewrite Hx.
Qed.

Lemma isKey_false key env k :
  isKey key env = false -> generateFingerprint env = Return k -> k <> key.
Proof.
  unfold isKey. intros H Hfp. rewrite Hfp in H.
  now apply String.eqb_neq in H.
Qed.

Section Block.

Variable key : string.

Lemma held_step deadline ev this :
  heldUntil key deadline this ->
  beforeDeadline deadline ev = true ->
  heldUntil key deadline (snd (step ev this)).
Proof.
  intros [Hin Hall] Hev. rewrite step_state.
  destruct ev as [env now|env|env now|env now|newConfig| | |i now|now];
    try discriminate; try (split; assumption).
  - destruct (generateFingerprint env) as [k|e] eqn:Hfp.
    + destruct (decide (k ∈ blockedIPs this)) as [Hk|Hk].
      * rewrite (checkRateLimit_blocked env now this k Hfp Hk). now split.
      * rewrite (checkRateLimit_open env now this k Hfp Hk).
        destruct (_ >=? _); cbn [snd]; [|now split].
        split; simpl; [set_solver|].
        apply Forall_app. split; [assumption|].
        constructor; [|constructor]. simpl. intros ->. contradiction.
    + unfold checkRateLimit, bind, lift, getClientIP. rewrite Hfp. now split.
  - simpl in Hev. apply Z.ltb_lt in Hev.
    destruct (timeoutFires_cases i now this) as [->|(due & k & Hi & Hdue & ->)];
      [now split|].
    assert (Hne : k <> key).
    { intros ->. rewrite Forall_lookup in Hall.
      specialize (Hall i (due, key) Hi eq_refl). simpl in Hall. lia. }
    split; simpl; [set_solver|]. now apply Forall_delete.
Qed.

Lemma held_after deadline evs : forall this,
  heldUntil key deadline this ->
  forallb (beforeDeadline deadline) evs = true ->
  heldUntil key deadline (after evs this).
Proof.
  induction evs as [|ev evs IH]; intros this Hheld Hevs; [exact Hheld|].
  simpl in Hevs. apply andb_prop in Hevs as [Hev Hevs].
  rewrite after_cons. apply IH; [|assumption]. now apply held_step.
Qed.

Lemma lifted_step t dueBy cfg ev this :
  liftedBy key t dueBy cfg this ->
  quietFor key ev = true ->
  liftedBy key t dueBy cfg (snd (step ev this)).
Proof.
  intros (Hcfg & Hreq & Htimer) Hev. rewrite step_state.
  destruct ev as [env now|env|env now|env now|newConfig| | |i now|now];
    try discriminate; try (repeat split; assumption).
  - simpl in Hev. apply negb_true_iff in Hev.
    destruct (generateFingerprint env) as [k|e] eqn:Hfp.
    + pose proof (isKey_false key env k Hev Hfp) as Hne.
      destruct (decide (k ∈ blockedIPs this)) as [Hk|Hk].
      * rewrite (checkRateLimit_blocked env now this k Hfp Hk).
        repeat split; assumption.
      * rewrite (checkRateLimit_open env now this k Hfp Hk).
        destruct (_ >=? _); cbn [snd].
        -- unfold liftedBy. rewrite requestsOf_denied_ne by assumption.
           repeat split; try assumption. simpl. intros Hin.
           assert (Hin' : key ∈ blockedIPs this).
           { apply elem_of_union in Hin as [Hin|Hin]; [|exact Hin].
             apply elem_of_singleton in Hin. congruence. }
           destruct (Htimer Hin') as (i & due & Hi & Hdue).
           exists i, due. split; [|assumption]. now apply lookup_app_l_Some.
        -- unfold liftedBy. rewrite requestsOf_admitted_ne by assumption.
           repeat split; assumption.
    + unfold checkRateLimit, bind, lift, getClientIP. rewrite Hfp.
      repeat split; assumption.
  - destruct (timeoutFires_cases i now this) as [->|(due & k & Hi & Hdue & ->)];
      [repeat split; assumption|].
    repeat split; try assumption. simpl. intros Hin.
    apply elem_of_difference in Hin as [Hin Hne].
    destruct (Htimer Hin) as (j & due' & Hj & Hdue').
    assert (Hij : j <> i).
    { intros ->. rewrite Hi in Hj. injection Hj as _ ->. set_solver. }
    destruct (Nat.lt_ge_cases j i) as [Hlt|Hge].
    + exists j, due'. split; [|assumption].
      now rewrite list_lookup_delete_lt.
    + exists (pred j), due'. split; [|assumption].
      rewrite list_lookup_delete_ge by lia.
      replace (S (pred j)) with j by lia. assumption.
  - unfold liftedBy. rewrite requestsOf_cleanup.
    repeat split; try assumption. now apply Forall_list_filter.
Qed.

Lemma lifted_after t dueBy cfg evs : forall this,
  liftedBy key t dueBy cfg this ->
  forallb (quietFor key) evs = true ->
  liftedBy key t dueBy cfg (after evs this).
Proof.
  induction evs as [|ev evs IH]; intros this Hl Hevs; [exact Hl|].
  simpl in Hevs. apply andb_prop in Hevs as [Hev Hevs].
  rewrite after_cons. apply IH; [|assumption]. now apply lifted_step.
Qed.

Lemma timeoutsRunBelow_frame now n : forall this,
  config (timeoutsRunBelow n now this) = config this /\
  clients (timeoutsRunBelow n now this) = clients this /\
  blockedIPs (timeoutsRunBelow n now this) ⊆ blockedIPs this.
Proof.
  induction n as [|n IH]; intros this.
  { split; [reflexivity|]. split; reflexivity. }
  cbn [timeoutsRunBelow].
  destruct (IH (snd (timeoutFires n now this))) as (Hc & Hcl & Hb).
  destruct (timeoutFires_frame n now this) as (Hc' & Hcl' & _ & _ & Hb').
  rewrite Hc, Hcl. repeat split; try assumption.
  etrans; eassumption.
Qed.

Lemma timeoutsRunBelow_fires now n : forall this (i : nat) due k,
  (i < n)%nat ->
  timeouts this !! i = Some (due, k) ->
  due <= now ->
  k ∉ blockedIPs (timeoutsRunBelow n now this).
Proof.
  induction n as [|n IH]; intros this i due k Hlt Hi Hdue; [lia|].
  cbn [timeoutsRunBelow].
  destruct (Nat.eq_dec i n) as [->|Hne].
  - pose proof (timeoutsRunBelow_frame now n (snd (timeoutFires n now this)))
      as (_ & _ & Hsub).
    intros Hin. apply Hsub in Hin. revert Hin.
    unfold timeoutFires, bind, get, ret, modify. rewrite Hi.
    destruct (Z.leb_spec due now); [|lia]. simpl.
    rewrite elem_of_difference, elem_of_singleton. tauto.
  - apply (IH _ i due k); [lia| |assumption].
    destruct (timeoutFires_cases n now this) as [->|(due' & k' & _ & _ & ->)];
      [assumption|].
    simpl. rewrite list_lookup_delete_lt by lia. assumption.
Qed.

Lemma timeoutsRun_lifts t dueBy cfg now this :
  liftedBy key t dueBy cfg this ->
  dueBy <= now ->
  (key ∉ blockedIPs (timeoutsRun now this)) /\
  config (timeoutsRun now this) = cfg /\
  requestsOf key (timeoutsRun now this) = requestsOf key this.
Proof.
  intros (Hcfg & Hreq & Htimer) Hnow. unfold timeoutsRun.
  pose proof (timeoutsRunBelow_frame now (length (timeouts this)) this)
    as (Hc & Hcl & Hsub).
  split; [|split].
  - destruct (decide (key ∈ blockedIPs this)) as [Hin|Hout].
    + destruct (Htimer Hin) as (i & due & Hi & Hdue).
      apply (timeoutsRunBelow_fires now _ this i due key);
        [now apply lookup_lt_Some in Hi|assumption|lia].
    + intros Hin. apply Hout, Hsub, Hin.
  - congruence.
  - unfold requestsOf. now rewrite Hcl.
Qed.

End Block.

(** The delay a timer really waits, for a duration below 2^31 ms. *)
Lemma timeout_delay_bounds delay :
  delay < 2 ^ 31 ->
  delay <= Z.max 0 (toInt32 delay) /\
  (0 <= delay -> Z.max 0 (toInt32 delay) = delay).
Proof.
  intros Hlt. destruct (Z.le_gt_cases 0 delay) as [Hpos|Hneg].
  - rewrite toInt32_small by lia. lia.
  - lia.
Qed.

(** C4, as stated, fails in its second half: with [maxRequests = 1],
    [windowMs = 1000] and [blockDurationMs = 10], the key is denied and
    blocked at t = 1; no request is made during the block, the timeout
    callback lifts it at t = 12 >= 1 + 10, and the first call after that,
    at t = 12, is denied again, because the request of t = 0 is still
    inside the window. *)
Lemma block_lift_counterexample :
  blockDurationMs (config shortBlockLimiter) = 10 /\
  windowMs (config shortBlockLimiter) = 1000 /\
  verdicts [call 0; call 1; TimeoutFires 0 12; call 12] shortBlockLimiter
  = [Return (VBool true); Return (VBool false); Return (VBool false)] /\
  bool_decide (sampleKey ∈ blockedIPs (after [call 0] shortBlockLimiter)) = false /\
  bool_decide (sampleKey ∈ blockedIPs (after [call 0; call 1] shortBlockLimiter))
  = true /\
  bool_decide
    (sampleKey ∈ blockedIPs (after [call 0; call 1; TimeoutFires 0 12]
                                   shortBlockLimiter)) = false.
Proof. vm_compute. repeat split. Qed.

(** C4 (amended): let [blockDurationMs < 2^31] (the range of a timer
    delay), and let a [checkRateLimit] call at instant [t] deny a key
    that was not blocked, and thereby block it, while no timeout callback
    of an earlier block of that key is pending with a due instant before
    [t + blockDurationMs].  Then the key is in the blocked-set, and as
    long as only events that can happen before [t + blockDurationMs] have
    occurred (timeout callbacks run at earlier instants, any calls, reads,
    sweeps, reconfigurations, but no [clearBlockedIPs]) every
    [checkRateLimit] call for the key returns [false] and changes nothing.
    If moreover [maxRequests >= 1], [blockDurationMs >= windowMs], the
    recorded timestamps of the key are not later than [t], and no request
    for the key, reconfiguration or [clearBlockedIPs] occurs in between,
    then once the due timeout callbacks have run at an instant
    [now >= t + blockDurationMs], the call at [now] returns [true]. *)
Theorem block_holds_then_lifts env key t this :
  blockDurationMs (config this) < 2 ^ 31 ->
  generateFingerprint env = Return key ->
  key ∉ blockedIPs this ->
  fst (checkRateLimit env t this) = Return false ->
  Forall (fun entry : Z * string =>
            entry.2 = key -> t + blockDurationMs (config this) <= entry.1)
         (timeouts this) ->
  let blockedAt := snd (checkRateLimit env t this) in
  let B := blockDurationMs (config this) in
  key ∈ blockedIPs blockedAt /\
  (forall evs env' now,
     forallb (beforeDeadline (t + B)) evs = true ->
     generateFingerprint env' = Return key ->
     checkRateLimit env' now (after evs blockedAt)
     = (Return false, after evs blockedAt)) /\
  (1 <= maxRequests (config this) ->
   windowMs (config this) <= B ->
   Forall (fun timestamp => timestamp <= t) (requestsOf key this) ->
   forall evs now,
     forallb (quietFor key) evs = true ->
     t + B <= now ->
     fst (checkRateLimit env now (timeoutsRun now (after evs blockedAt)))
     = Return true).
Proof.
  intros Hrange Hfp Hout Hdenied Hstale blockedAt B. subst blockedAt B.
  pose proof (timeout_delay_bounds _ Hrange) as [Hwait Hexact].
  rewrite (checkRateLimit_open env t this key Hfp Hout) in *.
  destruct (Z.geb_spec (Z.of_nat (length (kept key t this)))
                       (maxRequests (config this))) as [Hfull|Hroom];
    [|discriminate].
  cbn [snd].
  assert (Hheld : heldUntil key (t + blockDurationMs (config this))
                            (denied key t this)).
  { split; simpl.
    - apply elem_of_union_l, elem_of_singleton. reflexivity.
    - apply Forall_app. split; [assumption|].
      constructor; [|constructor]. simpl. lia. }
  split; [apply Hheld|]. split.
  - intros evs env' now Hevs Hfp'.
    apply (checkRateLimit_blocked env' now _ key Hfp').
    apply (held_after key _ evs _ Hheld Hevs).
  - intros Hmax HWB Hpast evs now Hevs Hnow.
    assert (HB : 0 < blockDurationMs (config this)).
    { destruct (kept key t this) as [|x xs] eqn:Hkept; [simpl in Hfull; lia|].
      assert (Hx : In x (kept key t this)) by (rewrite Hkept; now left).
      unfold kept in Hx. apply filter_In in Hx as [Hx Hfresh].
      apply Z.ltb_lt in Hfresh.
      rewrite List.Forall_forall in Hpast. specialize (Hpast x Hx). lia. }
    assert (Hl : liftedBy key t (t + blockDurationMs (config this))
                          (config this) (denied key t this)).
    { split; [reflexivity|]. split.
      - rewrite requestsOf_denied. unfold kept. now apply Forall_list_filter.
      - intros _.
        exists (length (timeouts this)),
               (t + Z.max 0 (toInt32 (blockDurationMs (config this)))).
        split; [|rewrite Hexact; lia]. simpl. apply list_lookup_middle.
        reflexivity. }
    pose proof (lifted_after key _ _ _ evs _ Hl Hevs) as Hl'.
    destruct (timeoutsRun_lifts key _ _ _ now _ Hl' ltac:(lia))
      as (Hfree & Hcfg & Hreq).
    rewrite (checkRateLimit_open env now _ key Hfp Hfree).
    assert (Hnone : kept key now (timeoutsRun now (after evs (denied key t this))) = []).
    { unfold kept. rewrite Hreq, Hcfg. apply filter_none.
      destruct Hl' as (_ & Hpast' & _).
      eapply Forall_impl; [exact Hpast'|].
      intros ts Hts. simpl in Hts. apply Z.ltb_ge. lia. }
    rewrite Hnone, Hcfg.
    destruct (Z.geb_spec (Z.of_nat (@length Z []))
                         (maxRequests (config this))) as [Hge|Hlt];
      [simpl in Hge; lia|reflexivity].
Qed.

Lemma block_holds_then_lifts_witness :
  let this := after [call 0; call 100; call 200] scenarioLimiter in
  let blockedAt := snd (checkRateLimit sampleBrowser 300 this) in
  checkRateLimit sampleBrowser 4999 (after [TimeoutFires 0 4999] blockedAt)
  = (Return false, after [TimeoutFires 0 4999] blockedAt) /\
  fst (checkRateLimit sampleBrowser 5300
         (timeoutsRun 5300 (after [CleanupFires 4000] blockedAt)))
  = Return true.
Proof.
  intros this blockedAt.
  assert (Hout : sampleKey ∉ blockedIPs this).
  { apply (bool_decide_eq_false_1 (sampleKey ∈ blockedIPs this)).
    vm_compute. reflexivity. }
  assert (Hdenied : fst (checkRateLimit sampleBrowser 300 this) = Return false)
    by (vm_compute; reflexivity).
  assert (Hstale : Forall (fun entry : Z * string =>
                             entry.2 = sampleKey ->
                             300 + blockDurationMs (config this) <= entry.1)
                          (timeouts this))
    by (vm_compute; constructor).
  assert (Hrange : blockDurationMs (config this) < 2 ^ 31)
    by (vm_compute; reflexivity).
  destruct (block_holds_then_lifts sampleBrowser sampleKey 300 this Hrange
              sampleKey_fingerprint Hout Hdenied Hstale) as (_ & Hholds & Hlifts).
  split.
  - apply Hholds; [reflexivity|exact sampleKey_fingerprint].
  - apply Hlifts.
    + vm_compute. discriminate.
    + vm_compute. discriminate.
    + assert (Hreq : requestsOf sampleKey this = [0; 100; 200])
        by (vm_compute; reflexivity).
      rewrite Hreq. repeat constructor; lia.
    + reflexivity.
    + vm_compute. discriminate.
Defined.

(** Why the amended C4 asks that no timeout callback of an earlier block
    be pending: [clearBlockedIPs] empties the blocked-set but leaves the
    registered callbacks in place.  With [maxRequests = 1] and
    [windowMs = blockDurationMs = 10], the key is blocked at t = 1,
    cleared by hand, blocked again at t = 2 (until 12); the callback of
    the first block runs at t = 11 and lifts the second one early. *)
Example stale_timeout_lifts_block_early :
  verdicts [call 0; call 1; ClearBlockedIPs; call 2;
            TimeoutFires 0 11; call 11] (constructor (configOf 1 10 10))
  = [Return (VBool true); Return (VBool false); Return (VBool false);
     Return (VBool true)] /\
  timeouts (after [call 0; call 1; ClearBlockedIPs; call 2]
                  (constructor (configOf 1 10 10)))
  = [(11, sampleKey); (12, sampleKey)].
Proof. vm_compute. split; reflexivity. Qed.

(** Why the amended C4 asks for [blockDurationMs < 2^31]: a longer
    duration does not fit the timer's 32-bit delay.  With
    [blockDurationMs = 2^31] the unblocking callback is due at the very
    instant of the block, and the key is no longer blocked once it has
    run, long before [t + blockDurationMs]. *)
Example oversized_block_lifts_at_once :
  timeouts (after [call 0; call 1] (constructor (configOf 1 1000 2147483648)))
  = [(1, sampleKey)] /\
  bool_decide
    (sampleKey ∈ blockedIPs (after [call 0; call 1]
                                   (constructor (configOf 1 1000 2147483648))))
  = true /\
  bool_decide
    (sampleKey ∈ blockedIPs (after [call 0; call 1; TimeoutFires 0 1]
                                   (constructor (configOf 1 1000 2147483648))))
  = false.
Proof. vm_compute. repeat split. Qed.

(** * Further properties of the code *)

(** ** The remaining quota *)

Lemma getRemainingRequests_value env key now this :
  generateFingerprint env = Return key ->
  getRemainingRequests env now this =
  (Return match clients this !! key with
          | None => maxRequests (config this)
          | Some _ =>
              Z.max 0 (maxRequests (config this)
                       - Z.of_nat (length (kept key now this)))
          end, this).
Proof.
  intros Hfp.
  unfold getRemainingRequests, bind, lift, getClientIP, get, ret, kept, requestsOf.
  rewrite Hfp. destruct (clients this !! key); reflexivity.
Qed.

Lemma isBlocked_value env key this :
  generateFingerprint env = Return key ->
  isBlocked env this = (Return (bool_decide (key ∈ blockedIPs this)), this).
Proof.
  intros Hfp. unfold isBlocked, bind, lift, getClientIP, get, ret.
  now rewrite Hfp.
Qed.

Lemma clients_admitted key now this :
  clients (admitted key now this)
  = <[key := set_requests (kept key now this ++ [now]) (clientOf key this)]>
      (clients this).
Proof. reflexivity. Qed.

Lemma clients_denied key now this :
  clients (denied key now this)
  = <[key := set_requests (kept key now this) (clientOf key this)]>
      (clients this).
Proof. reflexivity. Qed.

Section BurstQuota.

Variables (key : string) (lo hi : Z) (cfg : RateLimitConfig).
Hypothesis Hspan : hi - lo < windowMs cfg.

Lemma burst_after evs : forall n this,
  burstInv key lo hi cfg n this ->
  forallb (inBurst key lo hi) evs = true ->
  n + Z.of_nat (length (verdicts evs this)) <= maxRequests cfg ->
  burstInv key lo hi cfg (n + Z.of_nat (length (verdicts evs this)))
           (after evs this).
Proof.
  induction evs as [|ev evs IH]; intros n this Hinv Hevs Hle.
  - simpl. now rewrite Z.add_0_r.
  - simpl in Hevs. apply andb_prop in Hevs as [Hev Hevs].
    rewrite after_cons.
    destruct ev as [env now|env|env now|env now|newConfig| | |j now|now];
      try (cbn [verdicts] in *;
           apply IH; [apply (burst_background key lo hi cfg Hspan);
                        [assumption..|exact I]|assumption..]).
    cbn [verdicts] in *. rewrite step_checkRateLimit in *. cbn [fst snd] in *.
    cbn [length] in *.
    simpl in Hev. apply andb_prop in Hev as [Hev Hhi].
    apply andb_prop in Hev as [Hkey Hlo].
    apply isKey_true in Hkey. apply Z.leb_le in Hlo, Hhi.
    pose proof (burst_kept key lo hi cfg Hspan n now this Hinv (conj Hlo Hhi))
      as Hkept.
    pose proof Hinv as (Hcfg & Hout & Hlen & Hall).
    rewrite (checkRateLimit_open env now this key Hkey Hout) in *.
    rewrite Hkept, Hlen, Hcfg in *.
    destruct (Z.geb_spec n (maxRequests cfg)) as [Hge|Hlt]; [lia|].
    cbn [fst snd] in *.
    replace (n + Z.of_nat (S (length (verdicts evs (admitted key now this)))))
      with ((n + 1) + Z.of_nat (length (verdicts evs (admitted key now this))))
      by lia.
    apply IH; [|assumption|lia].
    apply (burst_admitted key lo hi cfg Hspan); auto.
Qed.

End BurstQuota.

(** X1: after [k] calls of a burst within one window, all for a key that
    had no record and no block, with [k <= maxRequests], the remaining
    quota read at an instant of the burst is [maxRequests - k]. *)
Theorem remaining_after_burst key lo hi this evs env now :
  clients this !! key = None ->
  key ∉ blockedIPs this ->
  hi - lo < windowMs (config this) ->
  forallb (inBurst key lo hi) evs = true ->
  Z.of_nat (length (verdicts evs this)) <= maxRequests (config this) ->
  generateFingerprint env = Return key ->
  lo <= now <= hi ->
  fst (getRemainingRequests env now (after evs this))
  = Return (maxRequests (config this) - Z.of_nat (length (verdicts evs this))).
Proof.
  intros Hnone Hout Hspan Hevs Hle Hfp Hnow.
  assert (Hinv0 : burstInv key lo hi (config this) 0 this).
  { unfold burstInv, requestsOf. rewrite Hnone.
    repeat split; [assumption|constructor]. }
  pose proof (burst_after key lo hi (config this) Hspan evs 0 this Hinv0 Hevs
                ltac:(lia)) as Hinv.
  rewrite Z.add_0_l in Hinv.
  pose proof (burst_kept key lo hi (config this) Hspan _ now _ Hinv Hnow) as Hkept.
  destruct Hinv as (Hcfg & _ & Hlen & _).
  rewrite (getRemainingRequests_value env key now _ Hfp). cbn [fst].
  rewrite Hkept, Hlen, Hcfg.
  unfold requestsOf in Hlen.
  destruct (clients (after evs this) !! key); f_equal; simpl in Hlen; lia.
Qed.

Lemma remaining_after_burst_witness :
  fst (getRemainingRequests sampleBrowser 250
         (after [call 0; call 100; CleanupFires 150] scenarioLimiter))
  = Return 1.
Proof.
  assert (Hout : sampleKey ∉ blockedIPs scenarioLimiter) by (simpl; set_solver).
  apply (remaining_after_burst sampleKey 0 300 scenarioLimiter
           [call 0; call 100; CleanupFires 150] sampleBrowser 250);
    first [assumption | reflexivity | exact sampleKey_fingerprint
          | (vm_compute; lia) | (vm_compute; discriminate)
          | (split; vm_compute; discriminate)].
Defined.

(** X2: for a key that is not blocked, [getRemainingRequests] predicts
    [checkRateLimit] at the same instant: the call is admitted exactly
    when the remaining quota is positive, and, when [windowMs > 0], an
    admitted call lowers the quota read at that instant by one. *)
Theorem remaining_predicts_verdict env key now this :
  generateFingerprint env = Return key ->
  key ∉ blockedIPs this ->
  exists r,
    fst (getRemainingRequests env now this) = Return r /\
    fst (checkRateLimit env now this) = Return (0 <? r) /\
    (0 < r -> 0 < windowMs (config this) ->
     fst (getRemainingRequests env now (snd (checkRateLimit env now this)))
     = Return (r - 1)).
Proof.
  intros Hfp Hout.
  rewrite (getRemainingRequests_value env key now this Hfp).
  rewrite (checkRateLimit_open env now this key Hfp Hout).
  eexists. split; [reflexivity|].
  assert (Hempty : clients this !! key = None -> kept key now this = []).
  { intros Hnone. unfold kept, requestsOf. now rewrite Hnone. }
  destruct (Z.geb_spec (Z.of_nat (length (kept key now this)))
                       (maxRequests (config this))) as [Hge|Hlt]; cbn [fst snd].
  - split.
    + f_equal. symmetry. apply Z.ltb_ge.
      destruct (clients this !! key); [lia|].
      rewrite Hempty in Hge by reflexivity. simpl in Hge. lia.
    + intros Hr. exfalso.
      destruct (clients this !! key); [lia|].
      rewrite Hempty in Hge by reflexivity. simpl in Hge. lia.
  - split.
    + f_equal. symmetry. apply Z.ltb_lt.
      destruct (clients this !! key); [lia|].
      rewrite Hempty in Hlt by reflexivity. simpl in Hlt. lia.
    + intros _ HW.
      rewrite (getRemainingRequests_value env key now _ Hfp). cbn [fst].
      rewrite clients_admitted, lookup_insert_eq.
      assert (Hk : kept key now (admitted key now this)
                   = (kept key now this ++ [now])%list).
      { unfold kept at 1. rewrite requestsOf_admitted.
        apply filter_all. apply Forall_app. split.
        - unfold kept. apply List.Forall_forall. intros x Hx.
          now apply filter_In in Hx.
        - constructor; [|constructor]. simpl. apply Z.ltb_lt. lia. }
      rewrite Hk, length_app. simpl. f_equal.
      destruct (clients this !! key); [lia|].
      rewrite Hempty in * by reflexivity. simpl in *. lia.
Qed.

Lemma remaining_predicts_verdict_witness :
  exists r,
    fst (getRemainingRequests sampleBrowser 50 scenarioLimiter) = Return r /\
    fst (checkRateLimit sampleBrowser 50 scenarioLimiter) = Return (0 <? r).
Proof.
  assert (Hout : sampleKey ∉ blockedIPs scenarioLimiter) by (simpl; set_solver).
  destruct (remaining_predicts_verdict sampleBrowser sampleKey 50 scenarioLimiter
              sampleKey_fingerprint Hout) as (r & Hr & Hv & _).
  exists r. split; assumption.
Defined.

(** X3: after a [checkRateLimit] call, [isBlocked] for the same
    environment is the negation of the verdict: a refused caller is in
    the blocked-set, an admitted one is not. *)
Theorem isBlocked_after_verdict env now this b :
  fst (checkRateLimit env now this) = Return b ->
  fst (isBlocked env (snd (checkRateLimit env now this))) = Return (negb b).
Proof.
  intros Hb.
  destruct (generateFingerprint env) as [key|e] eqn:Hfp.
  - rewrite (isBlocked_value env key _ Hfp). cbn [fst].
    destruct (decide (key ∈ blockedIPs this)) as [Hin|Hout].
    + rewrite (checkRateLimit_blocked env now this key Hfp Hin) in *.
      cbn [fst snd] in *. injection Hb as <-.
      now rewrite bool_decide_eq_true_2.
    + rewrite (checkRateLimit_open env now this key Hfp Hout) in *.
      destruct (_ >=? _); cbn [fst snd] in *; injection Hb as <-.
      * rewrite bool_decide_eq_true_2; [reflexivity|].
        simpl. apply elem_of_union_l, elem_of_singleton. reflexivity.
      * now rewrite bool_decide_eq_false_2.
  - unfold checkRateLimit, bind, lift, getClientIP in Hb. rewrite Hfp in Hb.
    discriminate.
Qed.

Lemma isBlocked_after_verdict_witness :
  fst (isBlocked sampleBrowser (snd (checkRateLimit sampleBrowser 0 scenarioLimiter)))
  = Return false.
Proof.
  apply (isBlocked_after_verdict sampleBrowser 0 scenarioLimiter true).
  vm_compute. reflexivity.
Defined.

(** ** Keys do not interact *)

Lemma checkRateLimit_frame env key now this :
  generateFingerprint env = Return key ->
  config (snd (checkRateLimit env now this)) = config this /\
  (forall key', key' <> key ->
     clients (snd (checkRateLimit env now this)) !! key' = clients this !! key') /\
  (forall key', key' <> key ->
     key' ∈ blockedIPs (snd (checkRateLimit env now this)) <-> key' ∈ blockedIPs this).
Proof.
  intros Hfp.
  destruct (decide (key ∈ blockedIPs this)) as [Hin|Hout].
  - rewrite (checkRateLimit_blocked env now this key Hfp Hin). cbn [snd].
    repeat split; auto.
  - rewrite (checkRateLimit_open env now this key Hfp Hout).
    destruct (_ >=? _); cbn [snd].
    + split; [reflexivity|]. split.
      * intros key' Hne. rewrite clients_denied. now apply lookup_insert_ne.
      * intros key' Hne. simpl. rewrite elem_of_union, elem_of_singleton. tauto.
    + split; [reflexivity|]. split.
      * intros key' Hne. rewrite clients_admitted. now apply lookup_insert_ne.
      * intros key' Hne. reflexivity.
Qed.

Lemma same_view_results env key s1 s2 :
  generateFingerprint env = Return key ->
  config s1 = config s2 ->
  clients s1 !! key = clients s2 !! key ->
  (key ∈ blockedIPs s1 <-> key ∈ blockedIPs s2) ->
  fst (isBlocked env s1) = fst (isBlocked env s2) /\
  (forall now, fst (getRemainingRequests env now s1)
               = fst (getRemainingRequests env now s2)) /\
  (forall now, fst (getTimeUntilReset env now s1)
               = fst (getTimeUntilReset env now s2)) /\
  (forall now, fst (checkRateLimit env now s1) = fst (checkRateLimit env now s2)).
Proof.
  intros Hfp Hcfg Hcl Hbl.
  assert (Hreq : requestsOf key s1 = requestsOf key s2)
    by (unfold requestsOf; now rewrite Hcl).
  assert (Hkept : forall now, kept key now s1 = kept key now s2)
    by (intros now; unfold kept; now rewrite Hreq, Hcfg).
  split; [|split; [|split]].
  - rewrite !(isBlocked_value env key _ Hfp). cbn [fst]. f_equal.
    apply bool_decide_ext. exact Hbl.
  - intros now. rewrite !(getRemainingRequests_value env key now _ Hfp).
    cbn [fst]. now rewrite Hcl, Hkept, Hcfg.
  - intros now. rewrite !(getTimeUntilReset_value env key now _ Hfp).
    cbn [fst]. now rewrite Hreq, Hcfg.
  - intros now. destruct (decide (key ∈ blockedIPs s1)) as [Hin|Hout].
    + rewrite (checkRateLimit_blocked env now s1 key Hfp Hin).
      rewrite (checkRateLimit_blocked env now s2 key Hfp (proj1 Hbl Hin)).
      reflexivity.
    + rewrite (checkRateLimit_open env now s1 key Hfp Hout).
      rewrite (checkRateLimit_open env now s2 key Hfp
                 (fun H => Hout (proj2 Hbl H))).
      rewrite Hkept, Hcfg. now destruct (_ >=? _).
Qed.

(** X4: two distinct fingerprints never interact.  A [checkRateLimit]
    call made under one key, whatever its outcome, leaves the record and
    the blocked status of every other key as they were, so that
    [isBlocked], [getRemainingRequests], [getTimeUntilReset] and the
    verdict of [checkRateLimit] for another key are unchanged. *)
Theorem other_key_untouched env key env' key' now this :
  generateFingerprint env = Return key ->
  generateFingerprint env' = Return key' ->
  key' <> key ->
  let next := snd (checkRateLimit env now this) in
  clients next !! key' = clients this !! key' /\
  (key' ∈ blockedIPs next <-> key' ∈ blockedIPs this) /\
  fst (isBlocked env' next) = fst (isBlocked env' this) /\
  (forall now', fst (getRemainingRequests env' now' next)
                = fst (getRemainingRequests env' now' this)) /\
  (forall now', fst (getTimeUntilReset env' now' next)
                = fst (getTimeUntilReset env' now' this)) /\
  (forall now', fst (checkRateLimit env' now' next)
                = fst (checkRateLimit env' now' this)).
Proof.
  intros Hfp Hfp' Hne next. subst next.
  destruct (checkRateLimit_frame env key now this Hfp) as (Hcfg & Hcl & Hbl).
  split; [now apply Hcl|]. split; [now apply Hbl|].
  apply (same_view_results env' key' _ _ Hfp' Hcfg (Hcl key' Hne) (Hbl key' Hne)).
Qed.

Lemma otherKey_fingerprint : generateFingerprint otherBrowser = Return "4z44f7".
Proof. vm_compute. reflexivity. Qed.

Lemma other_key_untouched_witness :
  let full := after [call 0; call 1; call 2] scenarioLimiter in
  fst (checkRateLimit otherBrowser 4 (snd (checkRateLimit sampleBrowser 3 full)))
  = fst (checkRateLimit otherBrowser 4 full).
Proof.
  intros full.
  assert (Hne : "4z44f7" <> sampleKey) by discriminate.
  apply (other_key_untouched sampleBrowser sampleKey otherBrowser "4z44f7" 3 full
           sampleKey_fingerprint otherKey_fingerprint Hne).
Defined.

(** ** The cleanup sweep *)

Lemma filter_filter_implied {A} (f g : A -> bool) (l : list A) :
  (forall x, f x = true -> g x = true) ->
  List.filter f (List.filter g l) = List.filter f l.
Proof.
  intros Himp. induction l as [|x l IH]; simpl; [reflexivity|].
  destruct (g x) eqn:Hg; simpl.
  - now rewrite IH.
  - destruct (f x) eqn:Hf; [|exact IH].
    apply Himp in Hf. congruence.
Qed.

Lemma filter_nil_iff {A} (f : A -> bool) (l : list A) :
  List.filter f l = [] <-> Forall (fun x => f x = false) l.
Proof.
  induction l as [|x l IH]; simpl.
  - split; [constructor|reflexivity].
  - destruct (f x) eqn:Hf.
    + split; [discriminate|]. intros H. apply Forall_cons in H as [H _]. congruence.
    + rewrite IH. split; [now constructor|]. intros H.
      now apply Forall_cons in H as [_ H].
Qed.

Lemma kept_cleanup key c now this :
  0 <= windowMs (config this) -> c <= now ->
  kept key now (snd (cleanup c this)) = kept key now this.
Proof.
  intros HW Hc. unfold kept. rewrite requestsOf_cleanup.
  apply filter_filter_implied.
  intros ts Hts. apply Z.ltb_lt in Hts. apply Z.ltb_lt.
  change (config (snd (cleanup c this))) with (config this) in Hts. lia.
Qed.

(** X5: the sweep is invisible to admission.  When [windowMs >= 0], a
    sweep run at an instant [c] does not change what a later
    [checkRateLimit] call (at [now >= c]) answers, which keys are blocked
    after it, or, for a key that is not blocked, which timestamps its
    record then holds: the sweep only drops timestamps the call would
    have pruned anyway. *)
Theorem cleanup_invisible_to_admission env key c now this :
  generateFingerprint env = Return key ->
  0 <= windowMs (config this) ->
  c <= now ->
  let swept := snd (cleanup c this) in
  fst (checkRateLimit env now swept) = fst (checkRateLimit env now this) /\
  blockedIPs (snd (checkRateLimit env now swept))
  = blockedIPs (snd (checkRateLimit env now this)) /\
  (key ∉ blockedIPs this ->
   requestsOf key (snd (checkRateLimit env now swept))
   = requestsOf key (snd (checkRateLimit env now this))).
Proof.
  intros Hfp HW Hc swept. subst swept.
  pose proof (kept_cleanup key c now this HW Hc) as Hkept.
  destruct (decide (key ∈ blockedIPs this)) as [Hin|Hout].
  - pose proof (checkRateLimit_blocked env now this key Hfp Hin) as E1.
    pose proof (checkRateLimit_blocked env now (snd (cleanup c this)) key Hfp Hin)
      as E2.
    rewrite E2, E1. cbn [fst snd].
    split; [reflexivity|]. split; [reflexivity|]. intros Hout. contradiction.
  - pose proof (checkRateLimit_open env now this key Hfp Hout) as E1.
    pose proof (checkRateLimit_open env now (snd (cleanup c this)) key Hfp Hout)
      as E2.
    rewrite E2, E1, Hkept.
    change (config (snd (cleanup c this))) with (config this).
    destruct (_ >=? _); cbn [fst snd].
    + split; [reflexivity|]. split; [reflexivity|]. intros _.
      now rewrite !requestsOf_denied.
    + split; [reflexivity|]. split; [reflexivity|]. intros _.
      now rewrite !requestsOf_admitted, Hkept.
Qed.

Lemma cleanup_invisible_to_admission_witness :
  let this := after [call 0; call 100; call 200] scenarioLimiter in
  fst (checkRateLimit sampleBrowser 2600 (snd (cleanup 2500 this)))
  = fst (checkRateLimit sampleBrowser 2600 this).
Proof.
  intros this.
  apply (cleanup_invisible_to_admission sampleBrowser sampleKey 2500 2600 this
           sampleKey_fingerprint).
  - vm_compute. discriminate.
  - vm_compute. discriminate.
Defined.

Lemma clients_cleanup key now this :
  clients (snd (cleanup now this)) !! key =
  match clients this !! key with
  | Some client =>
      match List.filter (fun timestamp => now - windowMs (config this) * 2 <? timestamp)
                        (requests client) with
      | [] => None
      | recent => Some (set_requests recent client)
      end
  | None => None
  end.
Proof.
  unfold cleanup, modify. simpl. rewrite lookup_omap.
  destruct (clients this !! key) as [client|]; simpl; [|reflexivity].
  destruct (List.filter _ (requests client)); reflexivity.
Qed.

(** X6: what a sweep at [now] leaves.  With [cutoff = now - 2*windowMs],
    every key's timestamps are filtered to those later than [cutoff];
    a record that is left is never empty and holds only such timestamps;
    a key is without record afterwards exactly when it had no timestamp
    later than [cutoff]; the blocked-set, the suspicious set, the pending
    callbacks and the configuration are not touched; and sweeping again
    at the same instant changes nothing. *)
Theorem cleanup_keeps_recent now this :
  let cutoff := now - windowMs (config this) * 2 in
  let swept := snd (cleanup now this) in
  (forall key,
     requestsOf key swept
     = List.filter (fun timestamp => cutoff <? timestamp) (requestsOf key this)) /\
  (forall key client,
     clients swept !! key = Some client ->
     requests client <> [] /\
     Forall (fun timestamp => cutoff < timestamp) (requests client)) /\
  (forall key,
     clients swept !! key = None <->
     Forall (fun timestamp => timestamp <= cutoff) (requestsOf key this)) /\
  (config swept = config this /\ blockedIPs swept = blockedIPs this /\
   suspiciousIPs swept = suspiciousIPs this /\ timeouts swept = timeouts this) /\
  snd (cleanup now swept) = swept.
Proof.
  cbv zeta. split; [|split; [|split; [|split]]].
  - intros key. apply requestsOf_cleanup.
  - intros key client. rewrite clients_cleanup.
    destruct (clients this !! key) as [old|]; [|discriminate].
    destruct (List.filter _ (requests old)) as [|r rs] eqn:Hf; [discriminate|].
    intros [= <-]. simpl. split; [discriminate|].
    rewrite <- Hf. apply List.Forall_forall. intros x Hx.
    apply filter_In in Hx as [_ Hx]. now apply Z.ltb_lt in Hx.
  - intros key. rewrite clients_cleanup. unfold requestsOf.
    destruct (clients this !! key) as [old|]; [|split; [constructor|reflexivity]].
    destruct (List.filter _ (requests old)) as [|r rs] eqn:Hf.
    + split; [|reflexivity]. intros _.
      apply filter_nil_iff in Hf.
      eapply Forall_impl; [exact Hf|]. intros x Hx. simpl in Hx.
      apply Z.ltb_ge in Hx. exact Hx.
    + split; [discriminate|]. intros Hall. exfalso.
      assert (Hin : In r (List.filter
                 (fun timestamp => now - windowMs (config this) * 2 <? timestamp)
                 (requests old))) by (rewrite Hf; now left).
      apply filter_In in Hin as [Hin Hr]. apply Z.ltb_lt in Hr.
      rewrite List.Forall_forall in Hall. specialize (Hall r Hin). lia.
  - repeat split.
  - assert (Hcl : clients (snd (cleanup now (snd (cleanup now this))))
                  = clients (snd (cleanup now this))).
    { apply map_eq. intros key.
      rewrite (clients_cleanup key now (snd (cleanup now this))).
      rewrite (clients_cleanup key now this).
      change (config (snd (cleanup now this))) with (config this).
      destruct (clients this !! key) as [old|]; [|reflexivity].
      destruct (List.filter _ (requests old)) as [|r rs] eqn:Hf; [reflexivity|].
      cbn [requests set_requests].
      assert (Hff : List.filter
                (fun timestamp => now - windowMs (config this) * 2 <? timestamp)
                (r :: rs) = r :: rs).
      { rewrite <- Hf. now apply filter_filter_implied. }
      rewrite Hff. reflexivity. }
    destruct this as [cfg cl bl su ti co].
    unfold cleanup, modify, set_clients in *. simpl in *. f_equal. exact Hcl.
Qed.

Lemma cleanup_keeps_recent_witness :
  requestsOf sampleKey
    (snd (cleanup 2500 (after [call 0; call 600] scenarioLimiter)))
  = [600].
Proof.
  destruct (cleanup_keeps_recent 2500 (after [call 0; call 600] scenarioLimiter))
    as [Hreq _].
  rewrite Hreq. vm_compute. reflexivity.
Defined.

(** ** What a call leaves in the record *)

(** X7: after a [checkRateLimit] call at [now] for a key that was not
    blocked, with [windowMs > 0], no stale timestamp is left in the key's
    record: every stored timestamp [t] has [now - t < windowMs], and each
    of them was either recorded before or is [now] itself. *)
Theorem no_stale_timestamp_after_check env key now this :
  generateFingerprint env = Return key ->
  key ∉ blockedIPs this ->
  0 < windowMs (config this) ->
  let after_call := requestsOf key (snd (checkRateLimit env now this)) in
  Forall (fun timestamp => now - timestamp < windowMs (config this)) after_call /\
  Forall (fun timestamp => In timestamp (requestsOf key this) \/ timestamp = now)
         after_call.
Proof.
  intros Hfp Hout HW after_call. subst after_call.
  assert (Hkept : Forall (fun ts => now - ts < windowMs (config this)
                                    /\ In ts (requestsOf key this))
                         (kept key now this)).
  { apply List.Forall_forall. intros x Hx. unfold kept in Hx.
    apply filter_In in Hx as [Hin Hx]. apply Z.ltb_lt in Hx. now split. }
  rewrite (checkRateLimit_open env now this key Hfp Hout).
  destruct (_ >=? _); cbn [snd].
  - rewrite requestsOf_denied. split.
    + eapply Forall_impl; [exact Hkept|]. now intros x [? ?].
    + eapply Forall_impl; [exact Hkept|]. intros x [? ?]. now left.
  - rewrite requestsOf_admitted. split; apply Forall_app; split.
    + eapply Forall_impl; [exact Hkept|]. now intros x [? ?].
    + constructor; [lia|constructor].
    + eapply Forall_impl; [exact Hkept|]. intros x [? ?]. now left.
    + constructor; [now right|constructor].
Qed.

Lemma no_stale_timestamp_after_check_witness :
  let this := after [call 0; call 500] scenarioLimiter in
  Forall (fun timestamp => 1200 - timestamp < 1000)
         (requestsOf sampleKey (snd (checkRateLimit sampleBrowser 1200 this))).
Proof.
  intros this.
  assert (Hout : sampleKey ∉ blockedIPs this).
  { apply (bool_decide_eq_false_1 (sampleKey ∈ blockedIPs this)).
    vm_compute. reflexivity. }
  assert (HW : 0 < windowMs (config this)) by (vm_compute; reflexivity).
  apply (no_stale_timestamp_after_check sampleBrowser sampleKey 1200 this
           sampleKey_fingerprint Hout HW).
Defined.

(** ** Invariants of the reachable states *)

Lemma after_app evs1 evs2 this :
  after (evs1 ++ evs2) this = after evs2 (after evs1 this).
Proof. unfold after. apply fold_left_app. Qed.

(** A property kept by every step is kept by every trace. *)
Lemma after_invariant (P : QuadKernRateLimiter -> Prop) (ok : event -> bool) :
  (forall ev this, ok ev = true -> P this -> P (snd (step ev this))) ->
  forall evs this, forallb ok evs = true -> P this -> P (after evs this).
Proof.
  intros Hstep. induction evs as [|ev evs IH]; intros this Hevs HP; [exact HP|].
  simpl in Hevs. apply andb_prop in Hevs as [Hev Hevs].
  rewrite after_cons. apply IH; [assumption|]. now apply Hstep.
Qed.

Lemma checkRateLimit_cases env now this :
  snd (checkRateLimit env now this) = this \/
  exists key,
    generateFingerprint env = Return key /\ (key ∉ blockedIPs this) /\
    ((maxRequests (config this) <= Z.of_nat (length (kept key now this)) /\
      snd (checkRateLimit env now this) = denied key now this) \/
     (Z.of_nat (length (kept key now this)) < maxRequests (config this) /\
      snd (checkRateLimit env now this) = admitted key now this)).
Proof.
  destruct (generateFingerprint env) as [key|e] eqn:Hfp.
  - destruct (decide (key ∈ blockedIPs this)) as [Hin|Hout].
    + left. now rewrite (checkRateLimit_blocked env now this key Hfp Hin).
    + right. exists key. split; [reflexivity|]. split; [assumption|].
      rewrite (checkRateLimit_open env now this key Hfp Hout).
      destruct (Z.geb_spec (Z.of_nat (length (kept key now this)))
                           (maxRequests (config this))); [left|right]; now split.
  - left. unfold checkRateLimit, bind, lift, getClientIP. now rewrite Hfp.
Qed.

Lemma kept_length key now this :
  (length (kept key now this) <= length (requestsOf key this))%nat.
Proof. unfold kept. apply filter_length_le. Qed.

Lemma recordsBounded_step ev this :
  noReconfig ev = true ->
  recordsBounded this -> recordsBounded (snd (step ev this)).
Proof.
  intros Hev Hb. rewrite step_state.
  destruct ev as [env now|env|env now|env now|newConfig| | |i now|now];
    try discriminate; try exact Hb.
  - destruct (checkRateLimit_cases env now this)
      as [->|(key & _ & _ & [[Hfull ->]|[Hroom ->]])]; [exact Hb| |].
    + intros k c. rewrite clients_denied. simpl.
      destruct (decide (key = k)) as [->|Hne].
      * rewrite lookup_insert_eq. intros [= <-]. simpl.
        pose proof (kept_length k now this) as Hlen.
        unfold requestsOf in Hlen.
        destruct (clients this !! k) as [old|] eqn:Hold.
        -- specialize (Hb k old Hold). lia.
        -- simpl in Hlen. lia.
      * rewrite lookup_insert_ne by assumption. apply Hb.
    + intros k c. rewrite clients_admitted. simpl.
      destruct (decide (key = k)) as [->|Hne].
      * rewrite lookup_insert_eq. intros [= <-]. simpl.
        rewrite length_app. simpl. lia.
      * rewrite lookup_insert_ne by assumption. apply Hb.
  - destruct (timeoutFires_frame i now this) as (Hc & Hcl & _).
    intros k c. rewrite Hc, Hcl. apply Hb.
  - intros k c. rewrite clients_cleanup.
    change (config (snd (cleanup now this))) with (config this).
    destruct (clients this !! k) as [old|] eqn:Hold; [|discriminate].
    destruct (List.filter _ (requests old)) as [|r rs] eqn:Hf; [discriminate|].
    intros [= <-]. cbn [requests set_requests]. rewrite <- Hf.
    pose proof (filter_length_le
                  (fun timestamp => now - windowMs (config this) * 2 <? timestamp)
                  (requests old)) as Hlen.
    specialize (Hb k old Hold). lia.
Qed.

(** X8: a record never outgrows the ceiling.  In every state reached
    from a new limiter by any sequence of calls and timer callbacks that
    does not reconfigure it, each key's record holds at most
    [max(0, maxRequests)] timestamps. *)
Theorem record_never_exceeds_maxRequests newConfig evs key :
  forallb noReconfig evs = true ->
  let this := after evs (constructor newConfig) in
  Z.of_nat (length (requestsOf key this)) <= Z.max 0 (maxRequests (config this)).
Proof.
  intros Hevs this.
  assert (Hb : recordsBounded this).
  { apply (after_invariant recordsBounded noReconfig recordsBounded_step);
      [assumption|].
    intros k c Hk. simpl in Hk. rewrite lookup_empty in Hk. discriminate. }
  unfold requestsOf.
  destruct (clients this !! key) as [c|] eqn:Hc; [now apply (Hb key c)|].
  simpl. lia.
Qed.

Lemma record_never_exceeds_maxRequests_witness :
  let this := after [call 0; call 1; call 2; call 3; ClearBlockedIPs; call 4]
                    (constructor (configOf 3 1000 5000)) in
  Z.of_nat (length (requestsOf sampleKey this)) <= Z.max 0 (maxRequests (config this)).
Proof.
  exact (record_never_exceeds_maxRequests (configOf 3 1000 5000)
           [call 0; call 1; call 2; call 3; ClearBlockedIPs; call 4] sampleKey
           eq_refl).
Defined.

Lemma blocked_suspicious_step ev this :
  blockedIPs this ⊆ suspiciousIPs this ->
  blockedIPs (snd (step ev this)) ⊆ suspiciousIPs (snd (step ev this)).
Proof.
  intros Hsub. rewrite step_state.
  destruct ev as [env now|env|env now|env now|newConfig| | |i now|now];
    try exact Hsub.
  - destruct (checkRateLimit_cases env now this)
      as [->|(key & _ & _ & [[_ ->]|[_ ->]])]; [exact Hsub| |exact Hsub].
    simpl. intros k Hk. apply elem_of_union in Hk as [Hk|Hk].
    + now apply elem_of_union_l.
    + apply elem_of_union_r, Hsub, Hk.
  - simpl. reflexivity.
  - destruct (timeoutFires_frame i now this) as (_ & _ & Hs & _ & Hb).
    rewrite Hs. etrans; eassumption.
Qed.

(** X9: whoever is blocked has been marked suspicious.  In every state
    reached from a new limiter by any sequence of calls and timer
    callbacks, the blocked-set is included in the suspicious set, so the
    [blockedIPs] count reported by [getStats] never exceeds its
    [suspiciousIPs] count. *)
Theorem blocked_subset_of_suspicious newConfig evs :
  let this := after evs (constructor newConfig) in
  blockedIPs this ⊆ suspiciousIPs this /\
  exists stats,
    fst (getStats this) = Return stats /\
    (blockedIPs_size stats <= suspiciousIPs_size stats)%nat.
Proof.
  intros this.
  assert (Hsub : blockedIPs this ⊆ suspiciousIPs this).
  { apply (after_invariant (fun s => blockedIPs s ⊆ suspiciousIPs s)
             (fun _ => true)).
    - intros ev s _. apply blocked_suspicious_step.
    - clear. induction evs; [reflexivity|assumption].
    - reflexivity. }
  split; [exact Hsub|].
  eexists. split; [reflexivity|]. simpl. now apply subseteq_size.
Qed.

Lemma everyBlockHasTimeout_step ev this :
  everyBlockHasTimeout this -> everyBlockHasTimeout (snd (step ev this)).
Proof.
  intros Hinv. rewrite step_state.
  destruct ev as [env now|env|env now|env now|newConfig| | |i now|now];
    try exact Hinv.
  - destruct (checkRateLimit_cases env now this)
      as [->|(key & _ & _ & [[_ ->]|[_ ->]])]; [exact Hinv| |exact Hinv].
    intros k Hk. simpl in *. apply elem_of_union in Hk as [Hk|Hk].
    + apply elem_of_singleton in Hk as ->.
      exists (length (timeouts this)),
             (now + Z.max 0 (toInt32 (blockDurationMs (config this)))).
      apply list_lookup_middle. reflexivity.
    + destruct (Hinv k Hk) as (i & due & Hi).
      exists i, due. now apply lookup_app_l_Some.
  - intros k Hk. simpl in Hk. now apply not_elem_of_empty in Hk.
  - destruct (timeoutFires_cases i now this) as [->|(due & k' & Hi & _ & ->)];
      [exact Hinv|].
    intros k Hk. simpl in *.
    apply elem_of_difference in Hk as [Hk Hne].
    destruct (Hinv k Hk) as (j & due' & Hj).
    assert (Hij : j <> i).
    { intros ->. rewrite Hi in Hj. injection Hj as _ ->.
      apply Hne, elem_of_singleton. reflexivity. }
    destruct (Nat.lt_ge_cases j i) as [Hlt|Hge].
    + exists j, due'. now rewrite list_lookup_delete_lt.
    + exists (pred j), due'. rewrite list_lookup_delete_ge by lia.
      replace (S (pred j)) with j by lia. assumption.
Qed.

(** X10: no block lasts forever.  In every state reached from a new
    limiter by any sequence of calls and timer callbacks, every blocked
    key has an unblocking callback pending; hence once the event loop has
    run the pending callbacks at an instant at which all of them are due,
    the blocked-set is empty. *)
Theorem every_block_is_lifted newConfig evs now :
  let this := after evs (constructor newConfig) in
  Forall (fun entry : Z * string => entry.1 <= now) (timeouts this) ->
  (forall key, key ∈ blockedIPs this ->
     exists (i : nat) (due : Z), timeouts this !! i = Some (due, key)) /\
  blockedIPs (timeoutsRun now this) = ∅.
Proof.
  intros this Hdue.
  assert (Hinv : everyBlockHasTimeout this).
  { apply (after_invariant everyBlockHasTimeout (fun _ => true)).
    - intros ev s _. apply everyBlockHasTimeout_step.
    - clear. induction evs; [reflexivity|assumption].
    - intros k Hk. simpl in Hk. now apply not_elem_of_empty in Hk. }
  split; [exact Hinv|].
  apply elem_of_equiv_empty_L. intros k Hk.
  unfold timeoutsRun in Hk.
  pose proof (timeoutsRunBelow_frame now (length (timeouts this)) this)
    as (_ & _ & Hsub).
  destruct (Hinv k (Hsub k Hk)) as (i & due & Hi).
  revert Hk.
  apply (timeoutsRunBelow_fires now _ this i due k);
    [now apply lookup_lt_Some in Hi|assumption|].
  rewrite Forall_lookup in Hdue. apply (Hdue i (due, k) Hi).
Qed.

Lemma every_block_is_lifted_witness :
  let this := after [call 0; call 1; call 2; call 3; CheckRateLimit otherBrowser 4]
                    (constructor (configOf 3 1000 5000)) in
  blockedIPs (timeoutsRun 6000 this) = ∅.
Proof.
  intros this.
  assert (Hdue : Forall (fun entry : Z * string => entry.1 <= 6000) (timeouts this)).
  { assert (Ht : timeouts this = [(5003, sampleKey)]) by (vm_compute; reflexivity).
    rewrite Ht. repeat constructor. simpl. lia. }
  exact (proj2 (every_block_is_lifted (configOf 3 1000 5000)
                  [call 0; call 1; call 2; call 3; CheckRateLimit otherBrowser 4]
                  6000 Hdue)).
Defined.

(** ** Clearing and reconfiguring *)

(** X11: [clearBlockedIPs] lifts every block and forgets who was
    suspicious, but resets no window: records and pending callbacks stay,
    and the next [checkRateLimit] call of any key is decided by its window
    alone, so a key whose window is still full is refused, and blocked,
    again. *)
Theorem clearBlockedIPs_resets_no_window env key now this :
  generateFingerprint env = Return key ->
  let cleared := snd (clearBlockedIPs this) in
  blockedIPs cleared = ∅ /\ suspiciousIPs cleared = ∅ /\
  clients cleared = clients this /\ timeouts cleared = timeouts this /\
  config cleared = config this /\
  fst (isBlocked env cleared) = Return false /\
  fst (checkRateLimit env now cleared)
  = Return (Z.of_nat (length (kept key now this)) <? maxRequests (config this)).
Proof.
  intros Hfp cleared. subst cleared.
  assert (Hout : key ∉ blockedIPs (snd (clearBlockedIPs this)))
    by (simpl; apply not_elem_of_empty).
  repeat split.
  - rewrite (isBlocked_value env key _ Hfp). cbn [fst].
    now rewrite bool_decide_eq_false_2.
  - pose proof (checkRateLimit_open env now _ key Hfp Hout) as E. rewrite E.
    change (kept key now (snd (clearBlockedIPs this))) with (kept key now this).
    change (config (snd (clearBlockedIPs this))) with (config this).
    destruct (Z.geb_spec (Z.of_nat (length (kept key now this)))
                         (maxRequests (config this))); cbn [fst]; f_equal;
      symmetry; [apply Z.ltb_ge|apply Z.ltb_lt]; lia.
Qed.

Lemma clearBlockedIPs_resets_no_window_witness :
  let blockedState := after [call 0; call 1; call 2; call 3] scenarioLimiter in
  fst (checkRateLimit sampleBrowser 4 (snd (clearBlockedIPs blockedState)))
  = Return false.
Proof.
  intros blockedState.
  pose proof (clearBlockedIPs_resets_no_window sampleBrowser sampleKey 4
                blockedState sampleKey_fingerprint) as H.
  cbv zeta in H. destruct H as (_ & _ & _ & _ & _ & _ & ->).
  vm_compute. reflexivity.
Defined.

Lemma spread_override base a b :
  spread (spread base a) b = spread base (override a b).
Proof.
  unfold spread, override. simpl.
  destruct (maxRequests_opt b), (windowMs_opt b), (blockDurationMs_opt b),
    (enableLogging_opt b); reflexivity.
Qed.

(** X12: reconfigurations compose by overriding.  Two successive
    [updateConfig] calls have the effect of one call with the second
    partial configuration laid over the first, a limiter constructed with
    one partial configuration and then updated with another equals the
    limiter constructed with the overlay, and [updateConfig] touches
    neither records, blocked-set, suspicious set nor the due instants of
    pending unblocking callbacks. *)
Theorem updateConfig_composes a b this :
  snd (updateConfig b (snd (updateConfig a this)))
  = snd (updateConfig (override a b) this) /\
  snd (updateConfig b (constructor a)) = constructor (override a b) /\
  clients (snd (updateConfig a this)) = clients this /\
  blockedIPs (snd (updateConfig a this)) = blockedIPs this /\
  suspiciousIPs (snd (updateConfig a this)) = suspiciousIPs this /\
  timeouts (snd (updateConfig a this)) = timeouts this.
Proof.
  split; [|split; [|repeat split]].
  - unfold updateConfig, modify, set_config. simpl.
    now rewrite spread_override.
  - unfold updateConfig, modify, set_config, constructor. simpl.
    now rewrite spread_override.
Qed.

(** ** The shape of a fingerprint *)

Lemma isDigit36_digit36 d : 0 <= d < 36 -> isDigit36 (digit36 d) = true.
Proof.
  intros Hd.
  rewrite <- (Z2Nat.id d) by lia.
  assert (Hn : (Z.to_nat d < 36)%nat) by lia.
  generalize dependent (Z.to_nat d). clear d Hd. intros n Hn.
  do 36 (destruct n as [|n]; [reflexivity|]).
  lia.
Qed.

Lemma toString36_from_digits fuel : forall n acc,
  0 <= n ->
  forallb isDigit36 (list_ascii_of_string acc) = true ->
  forallb isDigit36 (list_ascii_of_string (toString36_from fuel n acc)) = true.
Proof.
  induction fuel as [|fuel IH]; intros n acc Hn Hacc; cbn [toString36_from].
  - simpl. rewrite isDigit36_digit36 by (apply Z.mod_pos_bound; lia). exact Hacc.
  - destruct (n <? 36).
    + simpl. rewrite isDigit36_digit36 by (apply Z.mod_pos_bound; lia). exact Hacc.
    + apply IH; [apply Z.div_pos; lia|].
      simpl. rewrite isDigit36_digit36 by (apply Z.mod_pos_bound; lia). exact Hacc.
Qed.

Lemma toString36_from_length fuel : forall n acc (k : nat),
  (1 <= k)%nat -> 0 <= n < 36 ^ Z.of_nat k ->
  (1 + String.length acc <= String.length (toString36_from fuel n acc)
   <= k + String.length acc)%nat.
Proof.
  induction fuel as [|fuel IH]; intros n acc k Hk Hn; cbn [toString36_from].
  - simpl. lia.
  - destruct (Z.ltb_spec n 36) as [Hlt|Hge]; [simpl; lia|].
    destruct k as [|[|k]]; [lia|simpl in Hn; lia|].
    assert (Hq : 0 <= n / 36 < 36 ^ Z.of_nat (S k)).
    { split; [apply Z.div_pos; lia|].
      apply Z.div_lt_upper_bound; [lia|].
      rewrite (Nat2Z.inj_succ (S k)), Z.pow_succ_r in Hn by lia. lia. }
    specialize (IH (n / 36) (String (digit36 (n mod 36)) acc) (S k)
                   ltac:(lia) Hq).
    simpl in IH. lia.
Qed.

(** X13: every fingerprint is a short base-36 numeral: a key returned by
    [generateFingerprint] has between one and six characters, all among
    [0-9a-z], and reads back in base 36 as a number between 0 and 2^31. *)
Theorem fingerprint_key_shape env key :
  generateFingerprint env = Return key ->
  (1 <= String.length key <= 6)%nat /\
  forallb isDigit36 (list_ascii_of_string key) = true /\
  0 <= parse36 key <= 2 ^ 31.
Proof.
  unfold generateFingerprint. destruct (getContext2d env); [|discriminate].
  cbv zeta. intros [= <-].
  pose proof (hashLoop_range (charCodes (fingerprintText env))) as Hr.
  set (h := Z.abs (hashLoop (charCodes (fingerprintText env)))).
  assert (Hh : 0 <= h <= 2 ^ 31) by (unfold h; lia).
  split; [|split].
  - unfold toString36.
    pose proof (toString36_from_length (Z.to_nat (Z.log2 h)) h "" 6
                  ltac:(lia)) as Hlen.
    simpl String.length in Hlen. rewrite !Nat.add_0_r in Hlen.
    apply Hlen. change (36 ^ Z.of_nat 6) with 2176782336.
    change (2 ^ 31) with 2147483648 in Hh. lia.
  - unfold toString36. apply toString36_from_digits; [lia|reflexivity].
  - rewrite parse36_toString36; lia.
Qed.

Lemma fingerprint_key_shape_witness :
  (1 <= String.length sampleKey <= 6)%nat /\
  forallb isDigit36 (list_ascii_of_string sampleKey) = true /\
  0 <= parse36 sampleKey <= 2 ^ 31.
Proof.
  exact (fingerprint_key_shape sampleBrowser sampleKey sampleKey_fingerprint).
Defined.

(** X14: two environments get the same key exactly when their hashes
    agree up to sign: the base-36 numeral loses nothing of the absolute
    value, and [Math.abs] loses the sign. *)
Theorem same_key_iff_same_abs_hash env1 env2 key1 key2 :
  generateFingerprint env1 = Return key1 ->
  generateFingerprint env2 = Return key2 ->
  (key1 = key2 <->
   Z.abs (hashLoop (charCodes (fingerprintText env1)))
   = Z.abs (hashLoop (charCodes (fingerprintText env2)))).
Proof.
  unfold generateFingerprint.
  destruct (getContext2d env1); [|discriminate].
  destruct (getContext2d env2); [|discriminate].
  cbv zeta. intros [= <-] [= <-]. split.
  - intros Heq. apply (f_equal parse36) in Heq.
    rewrite !parse36_toString36 in Heq by lia. exact Heq.
  - intros Heq. now rewrite Heq.
Qed.

Lemma same_key_iff_same_abs_hash_witness :
  sampleKey = "4z44f7" <->
  Z.abs (hashLoop (charCodes (fingerprintText sampleBrowser)))
  = Z.abs (hashLoop (charCodes (fingerprintText otherBrowser))).
Proof.
  exact (same_key_iff_same_abs_hash sampleBrowser otherBrowser sampleKey "4z44f7"
           sampleKey_fingerprint otherKey_fingerprint).
Defined.

Lemma polynomial31_snoc codes char :
  polynomial31 (codes ++ [char]) = 31 * polynomial31 codes + char.
Proof. unfold polynomial31. now rewrite fold_left_app. Qed.

Lemma hashLoop_snoc codes char :
  hashLoop (codes ++ [char]) = hashStep (hashLoop codes) char.
Proof. unfold hashLoop. now rewrite fold_left_app. Qed.

(** X15: the hash loop computes the polynomial
    [c0*31^(n-1) + ... + c(n-1)] of the code units, reduced once modulo
    2^32 into the signed 32-bit range: wrapping at every step of the loop
    gives the same result as wrapping the exact value at the end. *)
Theorem hashLoop_is_wrapped_polynomial codes :
  hashLoop codes = toInt32 (polynomial31 codes).
Proof.
  induction codes as [|char codes IH] using rev_ind.
  - reflexivity.
  - rewrite hashLoop_snoc, polynomial31_snoc, hashStep_times31, IH.
    apply toInt32_congr.
    rewrite (Z.add_mod (31 * toInt32 _)), (Z.mul_mod 31 (toInt32 _)),
      toInt32_mod by lia.
    rewrite <- Z.mul_mod, <- Z.add_mod by lia. reflexivity.
Qed.

(** ** Records under a clock that never goes back *)

Lemma StronglySorted_filter (f : Z -> bool) (l : list Z) :
  StronglySorted Z.le l -> StronglySorted Z.le (List.filter f l).
Proof.
  induction 1 as [|x l Hs IH Hx]; simpl; [constructor|].
  destruct (f x); [|exact IH].
  constructor; [exact IH|]. now apply Forall_list_filter.
Qed.

Lemma StronglySorted_snoc (l : list Z) (x : Z) :
  StronglySorted Z.le l -> Forall (fun y => y <= x) l ->
  StronglySorted Z.le (l ++ [x]).
Proof.
  induction 1 as [|y l Hs IH Hy]; intros Hle; simpl.
  - constructor; constructor.
  - apply Forall_cons in Hle as [Hyx Hle].
    constructor; [now apply IH|].
    apply Forall_app. split; [exact Hy|]. constructor; [exact Hyx|constructor].
Qed.

Lemma minOf_sorted r rs : StronglySorted Z.le (r :: rs) -> minOf r rs = r.
Proof.
  intros Hs. apply StronglySorted_inv in Hs as [_ Hr].
  destruct (minOf_spec rs r) as [Hin Hle].
  apply Forall_cons in Hle as [Hle _].
  destruct Hin as [Hin|Hin]; [now symmetry|].
  rewrite List.Forall_forall in Hr. specialize (Hr _ Hin). lia.
Qed.

Lemma inOrder_mono t t' this : t <= t' -> inOrder t this -> inOrder t' this.
Proof.
  intros Hle Hin key client Hk. destruct (Hin key client Hk) as [Hs Hall].
  split; [exact Hs|]. eapply Forall_impl; [exact Hall|].
  intros x Hx. simpl in Hx. lia.
Qed.

Lemma inOrder_requestsOf t key this :
  inOrder t this ->
  StronglySorted Z.le (requestsOf key this) /\
  Forall (fun timestamp => timestamp <= t) (requestsOf key this).
Proof.
  intros Hin. unfold requestsOf.
  destruct (clients this !! key) as [client|] eqn:Hk; [now apply (Hin key)|].
  split; constructor.
Qed.

Lemma inOrder_step t ev this :
  inOrder t this ->
  match timeOf ev with Some t' => t <= t' | None => True end ->
  inOrder (match timeOf ev with Some t' => t' | None => t end)
          (snd (step ev this)).
Proof.
  intros Hin Ht. rewrite step_state.
  destruct ev as [env now|env|env now|env now|newConfig| | |i now|now];
    cbn [timeOf] in *; try exact Hin; try (now apply (inOrder_mono t)).
  - assert (Hkept : forall key,
              StronglySorted Z.le (kept key now this) /\
              Forall (fun ts => ts <= now) (kept key now this)).
    { intros key. destruct (inOrder_requestsOf t key this Hin) as [Hs Hall].
      unfold kept. split; [now apply StronglySorted_filter|].
      apply Forall_list_filter. eapply Forall_impl; [exact Hall|].
      intros x Hx. simpl in Hx. lia. }
    destruct (checkRateLimit_cases env now this)
      as [->|(key & _ & _ & [[_ ->]|[_ ->]])];
      [now apply (inOrder_mono t)| |].
    + intros k c. rewrite clients_denied.
      destruct (decide (key = k)) as [->|Hne].
      * rewrite lookup_insert_eq. intros [= <-]. apply Hkept.
      * rewrite lookup_insert_ne by assumption. intros Hk.
        now apply (inOrder_mono t now this Ht Hin k).
    + intros k c. rewrite clients_admitted.
      destruct (decide (key = k)) as [->|Hne].
      * rewrite lookup_insert_eq. intros [= <-]. cbn [requests set_requests].
        destruct (Hkept k) as [Hs Hall]. split.
        -- now apply StronglySorted_snoc.
        -- apply Forall_app. split; [exact Hall|]. constructor; [lia|constructor].
      * rewrite lookup_insert_ne by assumption. intros Hk.
        now apply (inOrder_mono t now this Ht Hin k).
  - destruct (timeoutFires_frame i now this) as (_ & Hcl & _).
    intros k c. rewrite Hcl. now apply (inOrder_mono t now this Ht Hin k).
  - intros k c. rewrite clients_cleanup.
    destruct (clients this !! k) as [old|] eqn:Hold; [|discriminate].
    destruct (List.filter _ (requests old)) as [|r rs] eqn:Hf; [discriminate|].
    intros [= <-]. cbn [requests set_requests]. rewrite <- Hf.
    destruct (Hin k old Hold) as [Hs Hall]. split.
    + now apply StronglySorted_filter.
    + apply Forall_list_filter. eapply Forall_impl; [exact Hall|].
      intros x Hx. simpl in Hx. lia.
Qed.

Lemma inOrder_after evs : forall t this,
  inOrder t this -> chronological t evs = true ->
  inOrder (lastTime t evs) (after evs this).
Proof.
  induction evs as [|ev evs IH]; intros t this Hin Hevs; [exact Hin|].
  rewrite after_cons. cbn [chronological lastTime] in *.
  pose proof (inOrder_step t ev this Hin) as Hstep.
  destruct (timeOf ev) as [t'|].
  - apply andb_prop in Hevs as [Ht Hevs]. apply Z.leb_le in Ht.
    apply IH; [now apply Hstep|assumption].
  - apply IH; [now apply Hstep|assumption].
Qed.

(** X23: with a clock that never goes back, records are chronological.
    In every state reached from a new limiter by a trace whose clock
    readings do not decrease, each key's timestamps are stored in
    non-decreasing order and none is later than the last reading.  The
    oldest request that [getTimeUntilReset] looks for is then the first
    element of the record, and the time it returns at a later instant lies
    between 0 and [max(0, windowMs)]. *)
Theorem records_are_chronological newConfig t0 evs key env now :
  chronological t0 evs = true ->
  generateFingerprint env = Return key ->
  lastTime t0 evs <= now ->
  let this := after evs (constructor newConfig) in
  StronglySorted Z.le (requestsOf key this) /\
  Forall (fun timestamp => timestamp <= lastTime t0 evs) (requestsOf key this) /\
  exists v,
    fst (getTimeUntilReset env now this) = Return v /\
    v = match requestsOf key this with
        | [] => 0
        | oldest :: _ => Z.max 0 (windowMs (config this) - (now - oldest))
        end /\
    0 <= v <= Z.max 0 (windowMs (config this)).
Proof.
  intros Hevs Hfp Hnow this.
  assert (Hin : inOrder (lastTime t0 evs) this).
  { apply inOrder_after; [|assumption].
    intros k c Hk. simpl in Hk. rewrite lookup_empty in Hk. discriminate. }
  destruct (inOrder_requestsOf _ key this Hin) as [Hs Hall].
  split; [exact Hs|]. split; [exact Hall|].
  rewrite (getTimeUntilReset_value env key now this Hfp). cbn [fst].
  eexists. split; [reflexivity|].
  destruct (requestsOf key this) as [|r rs]; [split; [reflexivity|lia]|].
  rewrite (minOf_sorted r rs Hs).
  split; [reflexivity|].
  apply Forall_cons in Hall as [Hr _]. lia.
Qed.

Lemma records_are_chronological_witness :
  let this := after [call 0; call 500; CleanupFires 700; call 1200]
                    (constructor (configOf 3 1000 5000)) in
  StronglySorted Z.le (requestsOf sampleKey this) /\
  Forall (fun timestamp => timestamp <= 1200) (requestsOf sampleKey this).
Proof.
  intros this.
  destruct (records_are_chronological (configOf 3 1000 5000) 0
              [call 0; call 500; CleanupFires 700; call 1200]
              sampleKey sampleBrowser 1300 eq_refl sampleKey_fingerprint)
    as (Hs & Hall & _).
  - simpl. lia.
  - split; [exact Hs|exact Hall].
Defined.

(** ** Logging *)

Lemma silent_step ev this :
  noReconfig ev = true ->
  enableLogging (config this) = false /\ console this = [] ->
  enableLogging (config (snd (step ev this))) = false /\
  console (snd (step ev this)) = [].
Proof.
  intros Hev [Hoff Hempty]. rewrite step_state.
  destruct ev as [env now|env|env now|env now|newConfig| | |i now|now];
    try discriminate; try (split; assumption).
  - destruct (checkRateLimit_cases env now this)
      as [->|(key & _ & _ & [[_ ->]|[_ ->]])]; try (split; assumption).
    simpl. rewrite Hoff. split; [reflexivity|assumption].
  - destruct (timeoutFires_frame i now this) as (Hc & _ & _ & Hco & _).
    rewrite Hc, Hco. split; assumption.
Qed.

(** X24: with logging off the limiter is silent.  A limiter constructed
    without [enableLogging: true] and never reconfigured writes nothing to
    the console, whatever calls and timer callbacks occur and however many
    keys get blocked. *)
Theorem no_console_output_when_logging_off newConfig evs :
  enableLogging_opt newConfig <> Some true ->
  forallb noReconfig evs = true ->
  console (after evs (constructor newConfig)) = [].
Proof.
  intros Hoff Hevs.
  apply (after_invariant
           (fun s => enableLogging (config s) = false /\ console s = [])
           noReconfig silent_step evs (constructor newConfig) Hevs).
  split; [|reflexivity]. simpl.
  destruct (enableLogging_opt newConfig) as [[|]|]; [contradiction|reflexivity..].
Qed.

Lemma no_console_output_when_logging_off_witness :
  console (after [call 0; call 1; call 2; call 3]
                 (constructor (configOf 3 1000 5000))) = [].
Proof.
  apply (no_console_output_when_logging_off (configOf 3 1000 5000)
           [call 0; call 1; call 2; call 3]).
  - discriminate.
  - reflexivity.
Defined.

(** ** The response cache of the endpoint protection *)

Lemma cache_lookup_cleanup now this key :
  Endpoint.cache (Endpoint.cacheCleanup now this) !! key =
  match Endpoint.cache this !! key with
  | Some entry =>
      if now - Endpoint.timestamp entry
         >? Endpoint.cacheTimeout (Endpoint.config this)
      then None else Some entry
  | None => None
  end.
Proof.
  unfold Endpoint.cacheCleanup. simpl.
  destruct (Endpoint.cache this !! key) as [entry|] eqn:Hk.
  - destruct (Z.gtb_spec (now - Endpoint.timestamp entry)
                         (Endpoint.cacheTimeout (Endpoint.config this))) as [Hgt|Hle].
    + apply map_lookup_filter_None. right. intros x Hx.
      rewrite Hk in Hx. injection Hx as <-. simpl. lia.
    + apply map_lookup_filter_Some. split; [assumption|]. simpl. lia.
  - apply map_lookup_filter_None. now left.
Qed.

(** X16: a stored response is served until it expires.  After
    [setCache] at instant [t], [getFromCache] for the same endpoint and
    data returns the stored result, and changes nothing, as long as
    [now - t <= cacheTimeout]; at a later instant it returns [null] and
    deletes the entry, so every further read returns [null] as well.
    Reads under another cache key are not affected by the store. *)
Theorem cache_hit_until_expiry endpointId requestData result t now this :
  let stored := Endpoint.setCache endpointId requestData result t this in
  let ttl := Endpoint.cacheTimeout (Endpoint.config this) in
  (now - t <= ttl ->
   Endpoint.getFromCache endpointId requestData now stored = (Some result, stored)) /\
  (ttl < now - t ->
   let expired := snd (Endpoint.getFromCache endpointId requestData now stored) in
   fst (Endpoint.getFromCache endpointId requestData now stored) = None /\
   Endpoint.cache expired !! Endpoint.cacheKey endpointId requestData = None /\
   forall later,
     fst (Endpoint.getFromCache endpointId requestData later expired) = None) /\
  (forall endpointId' requestData' now',
     Endpoint.cacheKey endpointId' requestData'
     <> Endpoint.cacheKey endpointId requestData ->
     fst (Endpoint.getFromCache endpointId' requestData' now' stored)
     = fst (Endpoint.getFromCache endpointId' requestData' now' this)).
Proof.
  cbv zeta. unfold Endpoint.getFromCache, Endpoint.setCache. simpl.
  rewrite lookup_insert_eq. simpl.
  split; [|split].
  - intros Hle.
    destruct (Z.gtb_spec (now - t) (Endpoint.cacheTimeout (Endpoint.config this)));
      [lia|reflexivity].
  - intros Hgt.
    destruct (Z.gtb_spec (now - t) (Endpoint.cacheTimeout (Endpoint.config this)));
      [|lia].
    simpl. rewrite !lookup_delete_eq. repeat split.
  - intros endpointId' requestData' now' Hne.
    rewrite lookup_insert_ne by congruence.
    destruct (Endpoint.cache this !! _) as [entry|]; [|reflexivity].
    now destruct (_ >? _).
Qed.

Lemma cache_hit_until_expiry_witness :
  let stored := Endpoint.setCache "projects" None "[]" 1000 sampleProtection in
  Endpoint.getFromCache "projects" None 301000 stored = (Some "[]", stored) /\
  fst (Endpoint.getFromCache "projects" None 301001 stored) = None.
Proof.
  intros stored.
  destruct (cache_hit_until_expiry "projects" None "[]" 1000 301000 sampleProtection)
    as [Hhit _].
  destruct (cache_hit_until_expiry "projects" None "[]" 1000 301001 sampleProtection)
    as (_ & Hmiss & _).
  split.
  - apply Hhit. simpl. lia.
  - apply Hmiss. simpl. lia.
Defined.

(** X17: the cache sweep is invisible to reads.  The sweep at instant
    [now] removes exactly the entries with [now - timestamp >
    cacheTimeout] and keeps the others as they are; a read at any instant
    [later >= now] returns the same value whether or not the sweep has
    run. *)
Theorem cacheCleanup_invisible_to_reads now this :
  (forall key,
     Endpoint.cache (Endpoint.cacheCleanup now this) !! key =
     match Endpoint.cache this !! key with
     | Some entry =>
         if now - Endpoint.timestamp entry
            >? Endpoint.cacheTimeout (Endpoint.config this)
         then None else Some entry
     | None => None
     end) /\
  (forall endpointId requestData later,
     now <= later ->
     fst (Endpoint.getFromCache endpointId requestData later
            (Endpoint.cacheCleanup now this))
     = fst (Endpoint.getFromCache endpointId requestData later this)).
Proof.
  split; [intros key; apply cache_lookup_cleanup|].
  intros endpointId requestData later Hlater.
  unfold Endpoint.getFromCache.
  rewrite cache_lookup_cleanup.
  change (Endpoint.config (Endpoint.cacheCleanup now this))
    with (Endpoint.config this).
  destruct (Endpoint.cache this !! _) as [entry|]; [|reflexivity].
  destruct (Z.gtb_spec (now - Endpoint.timestamp entry)
                       (Endpoint.cacheTimeout (Endpoint.config this))) as [Hgt|Hle].
  - destruct (Z.gtb_spec (later - Endpoint.timestamp entry)
                         (Endpoint.cacheTimeout (Endpoint.config this)));
      [reflexivity|lia].
  - now destruct (_ >? _).
Qed.

Lemma cacheCleanup_invisible_to_reads_witness :
  let stored := Endpoint.setCache "projects" None "[]" 1000 sampleProtection in
  fst (Endpoint.getFromCache "projects" None 400000
         (Endpoint.cacheCleanup 350000 stored))
  = fst (Endpoint.getFromCache "projects" None 400000 stored).
Proof.
  intros stored.
  destruct (cacheCleanup_invisible_to_reads 350000 stored) as [_ Hread].
  apply Hread. lia.
Defined.

(** ** The request loop of the endpoint protection *)

Section RetryLoop.

Variables (network : Z -> Endpoint.FetchResult) (retries : Z)
          (url : string) (options : Endpoint.RequestInit).

Local Abbreviation loop :=
  (Endpoint.retryLoop network retries url options).

Lemma fetchCount_cons_fetch u o effects :
  Endpoint.fetchCount (Endpoint.Fetch u o :: effects)
  = S (Endpoint.fetchCount effects).
Proof. reflexivity. Qed.

Lemma fetchCount_wait attempt effects :
  Endpoint.fetchCount
    ((if attempt <? retries
      then [Endpoint.Delay (2 ^ attempt * 1000)] else []) ++ effects)
  = Endpoint.fetchCount effects.
Proof. now destruct (attempt <? retries). Qed.


Lemma last_wait attempt effects :
  effects <> [] ->
  List.last (Endpoint.Fetch url options ::
             (if attempt <? retries
              then [Endpoint.Delay (2 ^ attempt * 1000)] else []) ++ effects)
            Endpoint.ClearTimeout
  = List.last effects Endpoint.ClearTimeout.
Proof.
  intros Hne. destruct effects as [|e effects]; [contradiction|].
  now destruct (attempt <? retries).
Qed.

(** With enough fuel the loop ends, after at most as many fetches as
    attempts are left, and its last effect clears the abort timer. *)
Lemma retryLoop_total (n : nat) : forall (fuel : nat) attempt lastError,
  retries - attempt + 1 <= Z.of_nat n ->
  (n < fuel)%nat ->
  exists r effects,
    loop fuel attempt lastError = Some (r, effects) /\
    (Endpoint.fetchCount effects <= n)%nat /\
    effects <> [] /\
    List.last effects Endpoint.ClearTimeout = Endpoint.ClearTimeout.
Proof.
  induction n as [|n IH]; intros fuel attempt lastError Hleft Hfuel;
    (destruct fuel as [|fuel]; [lia|]); cbn [Endpoint.retryLoop].
  - destruct (Z.leb_spec attempt retries); [lia|].
    eexists _, _. split; [reflexivity|]. repeat split; [unfold Endpoint.fetchCount; simpl; lia|discriminate].
  - destruct (Z.leb_spec attempt retries).
    + destruct (Endpoint.attemptOutcome (network attempt)) as [result|error].
      * eexists _, _. split; [reflexivity|].
        repeat split; [unfold Endpoint.fetchCount; simpl; lia|discriminate].
      * destruct (IH fuel (attempt + 1) error ltac:(lia) ltac:(lia))
          as (r & effects & -> & Hcount & Hne & Hlast).
        eexists _, _. split; [reflexivity|].
        rewrite fetchCount_cons_fetch, fetchCount_wait, last_wait by assumption.
        repeat split; [lia| |assumption]. discriminate.
    + eexists _, _. split; [reflexivity|]. repeat split; [unfold Endpoint.fetchCount; simpl; lia|discriminate].
Qed.



End RetryLoop.

(** X18: the retry budget is respected and the abort timer is always
    cleared.  Whatever the outcomes with which the fetches settle,
    [executeRequest] sets the abort timer first, calls [fetch] at most
    [max(0, retries)] times, and the last thing it does, on success as on
    failure, is to clear the abort timer.  (A [fetch] that never settles
    is outside this statement.) *)
Theorem executeRequest_fetches_at_most_retries
  network endpoint requestData options this :
  exists r effects,
    Endpoint.executeRequest network endpoint requestData options this
    = Some (r, Endpoint.SetTimeout (Endpoint.timeout (Endpoint.config this))
               :: effects) /\
    (Endpoint.fetchCount effects
     <= Z.to_nat (Endpoint.retries (Endpoint.config this)))%nat /\
    List.last effects Endpoint.ClearTimeout = Endpoint.ClearTimeout /\
    effects <> [].
Proof.
  unfold Endpoint.executeRequest.
  destruct (retryLoop_total network (Endpoint.retries (Endpoint.config this))
              (Endpoint.url endpoint)
              (Endpoint.requestOptions endpoint requestData options)
              (Z.to_nat (Endpoint.retries (Endpoint.config this)))
              (S (Z.to_nat (Endpoint.retries (Endpoint.config this))))
              1 Endpoint.Undefined ltac:(lia) ltac:(lia))
    as (r & effects & -> & Hcount & Hne & Hlast).
  exists r, effects. repeat split; assumption.
Qed.





(** X21: with [retries <= 0] nothing is requested.  The loop body never
    runs: [executeRequest] sets the abort timer, clears it, and throws
    [undefined], the initial value of [lastError], without calling
    [fetch]. *)
Theorem executeRequest_without_retries
  network endpoint requestData options this :
  Endpoint.retries (Endpoint.config this) <= 0 ->
  Endpoint.executeRequest network endpoint requestData options this
  = Some (inr Endpoint.Undefined,
          [Endpoint.SetTimeout (Endpoint.timeout (Endpoint.config this));
           Endpoint.ClearTimeout]).
Proof.
  intros Hretries. unfold Endpoint.executeRequest.
  cbn [Endpoint.retryLoop].
  destruct (Z.leb_spec 1 (Endpoint.retries (Endpoint.config this))); [lia|].
  reflexivity.
Qed.

Lemma executeRequest_without_retries_witness :
  Endpoint.executeRequest secondAttemptSucceeds sampleEndpoint None None
    {| Endpoint.config :=
         {| Endpoint.baseUrl := ""; Endpoint.timeout := 8000;
            Endpoint.retries := 0; Endpoint.enableCache := true;
            Endpoint.cacheTimeout := 300000 |};
       Endpoint.endpoints := ∅; Endpoint.cache := ∅;
       Endpoint.requestQueue := ∅ |}
  = Some (inr Endpoint.Undefined,
          [Endpoint.SetTimeout 8000; Endpoint.ClearTimeout]).
Proof.
  apply (executeRequest_without_retries secondAttemptSucceeds sampleEndpoint
           None None).
  simpl. lia.
Defined.

Lemma requestOptions_headers endpoint requestData options :
  Endpoint.init_headers (Endpoint.requestOptions endpoint requestData options)
  = match options with
    | Some o =>
        Endpoint.orElse (Endpoint.init_headers o)
          (Some (default ∅ (Endpoint.init_headers o) ∪ Endpoint.headers endpoint))
    | None => Some (∅ ∪ Endpoint.headers endpoint)
    end.
Proof.
  unfold Endpoint.requestOptions.
  destruct options, requestData, (Endpoint.method endpoint); reflexivity.
Qed.

Lemma requestOptions_signal endpoint requestData options :
  Endpoint.init_signal (Endpoint.requestOptions endpoint requestData options)
  = match options with
    | Some o =>
        Endpoint.orElse (Endpoint.init_signal o) (Some Endpoint.ControllerSignal)
    | None => Some Endpoint.ControllerSignal
    end.
Proof.
  unfold Endpoint.requestOptions.
  destruct options, requestData, (Endpoint.method endpoint); reflexivity.
Qed.

(** X22: what the caller passes replaces what the endpoint prescribes.
    In the options handed to [fetch], headers given by the caller stand
    alone: a header of the endpoint (such as its key) that the caller did
    not repeat is not sent, although the two sets were merged first.  A
    signal given by the caller takes the place of the abort controller's,
    so that the timeout can no longer abort the request.  Without caller
    options the endpoint's headers and the controller's signal are used.
    For POST and PUT with data, the body is the data's JSON text whatever
    body the caller gave. *)
Theorem requestOptions_caller_overrides endpoint requestData o :
  (forall callerHeaders,
     Endpoint.init_headers o = Some callerHeaders ->
     Endpoint.init_headers
       (Endpoint.requestOptions endpoint requestData (Some o))
     = Some callerHeaders /\
     forall name,
       callerHeaders !! name = None ->
       Endpoint.init_headers
         (Endpoint.requestOptions endpoint requestData (Some o))
       ≫= (fun sent => sent !! name) = None) /\
  (Endpoint.init_headers o = None ->
   Endpoint.init_headers (Endpoint.requestOptions endpoint requestData (Some o))
   = Some (Endpoint.headers endpoint)) /\
  Endpoint.init_headers (Endpoint.requestOptions endpoint requestData None)
  = Some (Endpoint.headers endpoint) /\
  (Endpoint.init_signal o = Some Endpoint.CallerSignal ->
   Endpoint.init_signal (Endpoint.requestOptions endpoint requestData (Some o))
   = Some Endpoint.CallerSignal) /\
  Endpoint.init_signal (Endpoint.requestOptions endpoint requestData None)
  = Some Endpoint.ControllerSignal /\
  (forall json,
     requestData = Some json ->
     Endpoint.method endpoint = Endpoint.POST
     \/ Endpoint.method endpoint = Endpoint.PUT ->
     Endpoint.init_body (Endpoint.requestOptions endpoint requestData (Some o))
     = Some json).
Proof.
  rewrite !requestOptions_headers, !requestOptions_signal.
  split; [|split; [|split; [|split; [|split]]]].
  - intros callerHeaders Hh. rewrite Hh. simpl. split; [reflexivity|].
    intros name Hname. exact Hname.
  - intros Hh. rewrite Hh. simpl. now rewrite (left_id_L ∅ (∪)).
  - now rewrite (left_id_L ∅ (∪)).
  - intros Hs. now rewrite Hs.
  - reflexivity.
  - intros json -> [Hm|Hm]; unfold Endpoint.requestOptions; rewrite Hm;
      reflexivity.
Qed.

Lemma requestOptions_caller_overrides_witness :
  Endpoint.init_headers
    (Endpoint.requestOptions sampleEndpoint (Some "{}") (Some callerOptions))
  ≫= (fun sent => sent !! "X-QuadKern-Key") = None.
Proof.
  destruct (requestOptions_caller_overrides sampleEndpoint (Some "{}")
              callerOptions) as [Hheaders _].
  destruct (Hheaders {[ "Accept" := "application/json" ]} eq_refl) as [_ Hdrop].
  apply Hdrop. reflexivity.
Defined.
